(** * Dubbing back end: pipeline, voice policy, progress tracker and routes

    A shallow embedding of [services/dub.service.ts] (the dubbing pipeline),
    [utils/temp.ts] (temporary files) and [routes/dub.route.ts] (the HTTP
    handlers), followed by the properties of the pipeline that the
    specification states.

    Modelling conventions.
    - A JavaScript [number] holding a time stamp or a loudness level is an
      exact rational ([Qc]); the rounding of IEEE doubles is not modelled.
      The comparisons the code makes ([gap > 0], [seconds <= 0]) have the
      same outcome on doubles and on rationals, since a difference of two
      doubles is positive exactly when the minuend is the larger one.
      Counters and progress values are integers.
    - A JavaScript string is a [string] of bytes (its UTF-8 encoding); an
      ASCII character such as ["!"] occurs in the encoding exactly where it
      occurs in the text.
    - [Record<string, T>] objects and [Map]s are finite maps ([gmap]); keys
      are assumed not to shadow members of [Object.prototype].
    - [async] functions run to completion one after the other; a rejected
      promise is the [Throw] outcome of the error monad below.
    - The external world (the ffmpeg binary, the OpenAI endpoints, the clock
      and random generator behind [tempFile]) is a family of oracles that see
      the history of effects so far; file-system primitives on the temporary
      directory do not fail. *)

From Stdlib Require Import ZArith QArith Qcanon Qround String Ascii List Lia Lqa Sorted.
From stdpp Require Import base tactics option list gmap strings numbers pretty sorting.


Local Open Scope Z_scope.

(** ** Strings, as the built-ins the code calls *)

Module Js.

(** [s.includes(sub)] *)
Fixpoint includes (s sub : string) : bool :=
  if String.prefix sub s then true
  else match s with
       | EmptyString => false
       | String _ rest => includes rest sub
       end.

(** [s.startsWith(p)] and the text after the prefix *)
Fixpoint strip_prefix (p s : string) : option string :=
  match p, s with
  | EmptyString, _ => Some s
  | String a p', String b s' => if decide (a = b) then strip_prefix p' s' else None
  | String _ _, EmptyString => None
  end.

Definition is_digit (c : ascii) : bool :=
  let n := nat_of_ascii c in (48 <=? n)%nat && (n <=? 57)%nat.

Definition digit_value (c : ascii) : Z := Z.of_nat (nat_of_ascii c) - 48.

(** the longest run of decimal digits at the head of [s], and what follows *)
Fixpoint span_digits (s : string) : string * string :=
  match s with
  | EmptyString => (EmptyString, EmptyString)
  | String c rest =>
      if is_digit c
      then let '(ds, tl) := span_digits rest in (String c ds, tl)
      else (EmptyString, s)
  end.

(** White space and line terminators of ECMAScript, in UTF-8: the six ASCII
    ones, U+00A0, U+1680, U+2000..U+200A, U+2028, U+2029, U+202F, U+205F,
    U+3000 and U+FEFF. *)
Definition ws1 (c : ascii) : bool :=
  let n := nat_of_ascii c in ((9 <=? n)%nat && (n <=? 13)%nat) || (n =? 32)%nat.

Definition ws2 (c1 c2 : ascii) : bool :=
  (nat_of_ascii c1 =? 194)%nat && (nat_of_ascii c2 =? 160)%nat.

Definition ws3 (c1 c2 c3 : ascii) : bool :=
  let a := nat_of_ascii c1 in
  let b := nat_of_ascii c2 in
  let c := nat_of_ascii c3 in
  ((a =? 225) && (b =? 154) && (c =? 128))%nat
  || ((a =? 226) && (b =? 128)
      && (((128 <=? c) && (c <=? 138)) || (c =? 168) || (c =? 169) || (c =? 175)))%nat
  || ((a =? 226) && (b =? 129) && (c =? 159))%nat
  || ((a =? 227) && (b =? 128) && (c =? 128))%nat
  || ((a =? 239) && (b =? 187) && (c =? 191))%nat.

(** [s.trimStart()] *)
Fixpoint trimStart (s : string) : string :=
  match s with
  | EmptyString => s
  | String c1 r1 =>
      if ws1 c1 then trimStart r1
      else match r1 with
           | EmptyString => s
           | String c2 r2 =>
               if ws2 c1 c2 then trimStart r2
               else match r2 with
                    | EmptyString => s
                    | String c3 r3 => if ws3 c1 c2 c3 then trimStart r3 else s
                    end
           end
  end.

(** the same on the reversed text: the bytes of a character come last first *)
Fixpoint trimStart_rev (s : string) : string :=
  match s with
  | EmptyString => s
  | String c1 r1 =>
      if ws1 c1 then trimStart_rev r1
      else match r1 with
           | EmptyString => s
           | String c2 r2 =>
               if ws2 c2 c1 then trimStart_rev r2
               else match r2 with
                    | EmptyString => s
                    | String c3 r3 => if ws3 c3 c2 c1 then trimStart_rev r3 else s
                    end
           end
  end.

(** [s.trim()] *)
Definition trim (s : string) : string :=
  String.rev (trimStart_rev (String.rev (trimStart s))).

(** [s.split(sep)] for a one-character separator *)
Fixpoint split_go (sep : ascii) (cur : string) (s : string) : list string :=
  match s with
  | EmptyString => [String.rev cur]
  | String c rest =>
      if decide (c = sep) then String.rev cur :: split_go sep EmptyString rest
      else split_go sep (String c cur) rest
  end.

Definition split (sep : ascii) (s : string) : list string :=
  split_go sep EmptyString s.

(** [xs.join(sep)] *)
Fixpoint join (sep : string) (xs : list string) : string :=
  match xs with
  | [] => ""
  | [x] => x
  | x :: rest => x +:+ sep +:+ join sep rest
  end.

(** the value of a run of decimal digits, and of a fraction part *)
Definition digits_value (ds : string) : Z :=
  fold_left (fun acc c => 10 * acc + digit_value c) (list_ascii_of_string ds) 0.

(** [parseFloat(s)]: leading white space, an optional sign, digits with an
    optional fraction; [None] is [NaN].  Exponents and [Infinity] are not
    read: no text this program parses contains them. *)
Definition parseFloat (s : string) : option Qc :=
  let s0 := trimStart s in
  let '(neg, s1) :=
    match s0 with
    | String "-" r => (true, r)
    | String "+" r => (false, r)
    | _ => (false, s0)
    end in
  let '(ip, s2) := span_digits s1 in
  let fp := match s2 with
            | String "." r => fst (span_digits r)
            | _ => EmptyString
            end in
  if decide (ip = EmptyString /\ fp = EmptyString) then None
  else
    let v := (Qc_of_Z (digits_value ip)
              + Qc_of_Z (digits_value fp) / Qc_of_Z (10 ^ Z.of_nat (String.length fp)))%Qc in
    Some (if neg then (- v)%Qc else v).

(** [Math.floor] of a rational *)
Definition floor (x : Qc) : Z := Qfloor x.

(** [x.toFixed(f)] for [0 <= |x| < 10^21]: the integer [n] nearest to
    [x * 10^f], the larger one on a tie, written with at least [f + 1]
    digits and a point before the last [f]. *)
Definition toFixed_digits (f : nat) (x : Qc) : string :=
  let n := floor (x * Qc_of_Z (10 ^ Z.of_nat f) + Qc_of_Z 1 / Qc_of_Z 2)%Qc in
  let m := pretty (Z.to_N n) in
  let k := String.length m in
  let m := if (k <=? f)%nat then string_of_list_ascii (repeat "0"%char (f + 1 - k)) +:+ m else m in
  let k := String.length m in
  match f with
  | O => m
  | _ => substring 0 (k - f) m +:+ "." +:+ substring (k - f) f m
  end.

Definition toFixed (f : nat) (x : Qc) : string :=
  if decide (x < 0)%Qc then "-" +:+ toFixed_digits f (- x)%Qc
  else toFixed_digits f x.

End Js.

(** ** Data model *)

Inductive Gender := male | female.
Inductive Emotion := soft | firm | neutral | energetic.

Global Instance Gender_eq_dec : EqDecision Gender.
Proof. solve_decision. Defined.
Global Instance Emotion_eq_dec : EqDecision Emotion.
Proof. solve_decision. Defined.

(** One element of [transcription.segments]; [speaker] is [None] when the
    field is absent. *)
Record Segment := mkSegment {
  start : Qc;
  end_ : Qc;
  text : string;
  speaker : option string;
}.

(** The argument of [openai.audio.speech.create]. *)
Record SpeechRequest := mkSpeechRequest {
  model : string;
  voice : string;
  input : string;
}.

Global Instance SpeechRequest_eq_dec : EqDecision SpeechRequest.
Proof. solve_decision. Defined.

(** What a rejected promise carries. *)
Inductive Exn :=
| ExecError (args : list string)
| ApiError (endpoint : string)
| TypeError.

(** What the program does to the outside, in the order it does it.  The last
    constructor records a call of the internal function [speak] with its
    four arguments; it is not an effect and the oracles never see it. *)
Inductive Event :=
| ExecFile (args : list string)
| TranscriptionsCreate (file : string)
| ChatCompletionsCreate (content : string)
| SpeechCreate (req : SpeechRequest)
| WriteFile (path data : string)
| Unlink (path : string)
| TempName (path : string)
| ConsoleLog (tag : string) (gender : Gender)
| ConsoleError (msg : string) (err : Exn)
| ProgressSet (id : string) (value : Z)
| ProgressDelete (id : string)
| OutputSet (id path : string)
| OutputDelete (id : string)
| CallSpeak (text voice output : string) (emotion : Emotion).

Definition is_effect (e : Event) : bool :=
  match e with CallSpeak _ _ _ _ => false | _ => true end.

Inductive Result (A : Type) :=
| Ok (a : A)
| Throw (e : Exn).
Arguments Ok {A} a.
Arguments Throw {A} e.

(** Modelled from the spec: [utils/progress], which exports [progressMap]
    and [outputMap], is not among the sources.  The specification describes
    them as two process-wide registries, job id to progress value and job id
    to completed-output path, last write wins; the code uses them through
    [set], [get] and [delete].  The world holds them next to the file system
    (path to content) and the trace. *)
Record World := mkWorld {
  files : gmap string string;
  progressMap : gmap string Z;
  outputMap : gmap string string;
  trace : list Event;
}.

Definition history (w : World) : list Event := filter (fun e => is_effect e = true) (trace w).

Definition log (e : Event) (w : World) : World :=
  mkWorld (files w) (progressMap w) (outputMap w) (trace w ++ [e]).

Definition set_files (f : gmap string string) (w : World) : World :=
  mkWorld f (progressMap w) (outputMap w) (trace w).

Definition set_progressMap (p : gmap string Z) (w : World) : World :=
  mkWorld (files w) p (outputMap w) (trace w).

Definition set_outputMap (o : gmap string string) (w : World) : World :=
  mkWorld (files w) (progressMap w) o (trace w).

(** The oracles.  [ffmpeg h args] is [None] when the process fails and
    otherwise its standard error and the content of the file it writes;
    the three OpenAI endpoints are [None] when the call rejects. *)
Record Env := mkEnv {
  ffmpeg : list Event -> list string -> option (string * string);
  whisper : list Event -> string -> option (list Segment);
  chat : list Event -> string -> option string;
  tts : list Event -> SpeechRequest -> option string;
  now : list Event -> Z;
  random : list Event -> string;
  tmpdir : string;
  numberToString : Qc -> string;
}.

(** ** The monad of the pipeline: state and exceptions *)

Definition M (A : Type) : Type := World -> Result A * World.

Global Instance M_ret : MRet M := fun A a w => (Ok a, w).

Global Instance M_bind : MBind M := fun A B k m w =>
  match m w with
  | (Ok a, w1) => k a w1
  | (Throw e, w1) => (Throw e, w1)
  end.

Definition throw {A} (e : Exn) : M A := fun w => (Throw e, w).

Definition try_catch {A} (body : M A) (handler : Exn -> M A) : M A := fun w =>
  match body w with
  | (Ok a, w1) => (Ok a, w1)
  | (Throw e, w1) => handler e w1
  end.

Definition emit (e : Event) : M unit := fun w => (Ok tt, log e w).

(** ** [utils/temp.ts] and the registries *)

Section Program.
Context (env : Env).

(** [tempFile(ext)]: [path.join(os.tmpdir(), `${Date.now()}-${Math.random()}${ext}`)] *)
Definition tempFile (ext : string) : M string := fun w =>
  let p := tmpdir env +:+ "/" +:+ pretty (now env (history w)) +:+ "-"
           +:+ random env (history w) +:+ ext in
  (Ok p, log (TempName p) w).

(** [safeUnlink(file)]: [if (file && fs.existsSync(file)) fs.unlinkSync(file)] *)
Definition safeUnlink (file : string) : M unit := fun w =>
  if decide (file <> "" /\ is_Some (files w !! file))
  then (Ok tt, log (Unlink file) (set_files (delete file (files w)) w))
  else (Ok tt, w).

Definition writeFileSync (path data : string) : M unit := fun w =>
  (Ok tt, log (WriteFile path data) (set_files (<[path := data]> (files w)) w)).

Definition progressMap_set (id : string) (v : Z) : M unit := fun w =>
  (Ok tt, log (ProgressSet id v) (set_progressMap (<[id := v]> (progressMap w)) w)).

Definition outputMap_set (id path : string) : M unit := fun w =>
  (Ok tt, log (OutputSet id path) (set_outputMap (<[id := path]> (outputMap w)) w)).

(** [execFileAsync(FFMPEG_PATH, args)]: the promise rejects when the
    process fails, and a failed process is taken to write nothing;
    otherwise the process has written its output file, the last argument,
    unless that is ["-"].  The result is [stderr]. *)
Definition execFileAsync (args : list string) : M string := fun w =>
  let w1 := log (ExecFile args) w in
  match ffmpeg env (history w) args with
  | None => (Throw (ExecError args), w1)
  | Some (stderr, data) =>
      let out := List.last args "-" in
      (Ok stderr,
       if decide (out = "-") then w1 else set_files (<[out := data]> (files w1)) w1)
  end.

(** ** [services/dub.service.ts] *)

Definition maleVoices : list string := ["onyx"; "nova"; "shimmer"; "ballad"].
Definition femaleVoices : list string := ["alloy"; "verse"; "fable"; "coral"].

Definition extractAudio (input output : string) : M unit :=
  _ ← execFileAsync ["-i"; input; "-map"; "a"; "-q:a"; "0"; output];
  mret tt.

Definition createSilence (seconds : Qc) (output : string) : M unit :=
  if decide (seconds ≤ 0)%Qc then mret tt
  else
    _ ← execFileAsync
          ["-f"; "lavfi"; "-i"; "anullsrc=r=44100:cl=mono"; "-t";
           Js.toFixed 2 seconds; output];
    mret tt.

Definition translate (text : string) : M string := fun w =>
  let w1 := log (ChatCompletionsCreate text) w in
  match chat env (history w) text with
  | None => (Throw (ApiError "chat.completions"), w1)
  | Some content => (Ok (Js.trim content), w1)
  end.

(** [/RMS level dB: (-?\d+\.?\d+)/] tried at the head of [s]: the matched
    text.  [\d+\.?\d+] takes a run of digits, a point and a second run when
    they are there; otherwise it needs two digits, the last of which it
    gives to the second [\d+]. *)
Definition rms_at (s : string) : option string :=
  match Js.strip_prefix "RMS level dB: " s with
  | None => None
  | Some r0 =>
      let '(sign, r1) :=
        match r0 with
        | String "-" r => ("-", r)
        | _ => ("", r0)
        end in
      let '(d1, r2) := Js.span_digits r1 in
      let whole := if (2 <=? String.length d1)%nat
                   then Some ("RMS level dB: " +:+ sign +:+ d1) else None in
      match d1 with
      | EmptyString => None
      | _ =>
          match r2 with
          | String "." r3 =>
              match fst (Js.span_digits r3) with
              | EmptyString => whole
              | d2 => Some ("RMS level dB: " +:+ sign +:+ d1 +:+ "." +:+ d2)
              end
          | _ => whole
          end
      end
  end.

(** [stderr.match(/.../g)]: every match from left to right, the search
    resuming after each one ([skip] characters are still part of the last
    match); the empty list is [null]. *)
Fixpoint match_rms_go (skip : nat) (s : string) : list string :=
  match s with
  | EmptyString => []
  | String _ rest =>
      match skip with
      | S k => match_rms_go k rest
      | O =>
          match rms_at s with
          | Some m => m :: match_rms_go (String.length m - 1) rest
          | None => match_rms_go 0 rest
          end
      end
  end.

Definition match_rms (stderr : string) : list string := match_rms_go 0 stderr.

(** A number or [NaN], added and compared as JavaScript does. *)
Definition nan_add (a b : option Qc) : option Qc :=
  match a, b with
  | Some x, Some y => Some (x + y)%Qc
  | _, _ => None
  end.

Definition nan_lt (a : option Qc) (b : Qc) : bool :=
  match a with
  | Some x => bool_decide (x < b)%Qc
  | None => false
  end.

(** [rmsMatches.map((v) => parseFloat(v.split(":")[1].trim()))]; reading a
    property of [undefined] throws. *)
Fixpoint rms_values (rmsMatches : list string) : M (list (option Qc)) :=
  match rmsMatches with
  | [] => mret []
  | v :: rest =>
      match Js.split ":" v !! 1%nat with
      | None => throw TypeError
      | Some x =>
          xs ← rms_values rest;
          mret (Js.parseFloat (Js.trim x) :: xs)
      end
  end.

(** The part of [detectGender] after the [await], inside the [try]. *)
Definition gender_of_stderr (stderr : string) : M Gender :=
  let rmsMatches := match_rms stderr in
  if (0 <? length rmsMatches)%nat then
    rmsValues ← rms_values rmsMatches;
    let avgRms :=
      match fold_left nan_add rmsValues (Some (Qc_of_Z 0)) with
      | Some total => Some (total / Qc_of_Z (Z.of_nat (length rmsValues)))%Qc
      | None => None
      end in
    mret (if nan_lt avgRms (- (Qc_of_Z 125 / Qc_of_Z 10))%Qc then female else male)
  else mret male.

Definition detectGender (audioFile : string) : M Gender :=
  try_catch
    (stderr ← execFileAsync
                ["-i"; audioFile; "-af"; "astats=metadata=1:reset=1"; "-f"; "null"; "-"];
     gender_of_stderr stderr)
    (fun err =>
       emit (ConsoleError "Gender detection failed, defaulting to male:" err);;
       mret female).

Definition assignVoice (gender : Gender) (index : nat) : M string :=
  emit (ConsoleLog "jkhjkhk" gender);;
  match gender with
  | male => mret (maleVoices !!! (index `mod` length maleVoices)%nat)
  | female => mret (femaleVoices !!! (index `mod` length femaleVoices)%nat)
  end.

Definition tonePrompt : list (string * string) :=
  [("soft", "Speak softly and gently.");
   ("firm", "Speak clearly with confidence.");
   ("energetic", "Speak with lively energy.");
   ("neutral", "Speak naturally.")].

Definition speak (text voice output : string) (emotion : Emotion) : M unit :=
  emit (CallSpeak text voice output emotion);;
  let _ := tonePrompt in
  speech ← (fun w =>
              let req := mkSpeechRequest "gpt-4o-mini-tts" voice text in
              let w1 := log (SpeechCreate req) w in
              match tts env (history w) req with
              | None => (Throw (ApiError "audio.speech"), w1)
              | Some bytes => (Ok bytes, w1)
              end);
  writeFileSync output speech.

Definition concatAudio (files : list string) (output : string) : M unit :=
  list ← tempFile ".txt";
  writeFileSync list (Js.join "
" (map (fun f => "file '" +:+ f +:+ "'") files));;
  _ ← execFileAsync ["-f"; "concat"; "-safe"; "0"; "-i"; list; "-c"; "copy"; output];
  safeUnlink list.

(** *** The main function *)

(** The variables of [dubVideo] that the loop over the segments updates. *)
Record LoopState := mkLoopState {
  timeline : list string;
  lastEnd : Qc;
  speakerGender : gmap string Gender;
  speakerIndex : gmap string nat;
}.

(** [seg.speaker || `segment_${i}`] *)
Definition speakerKey (seg : Segment) (i : nat) : string :=
  match speaker seg with
  | Some s => if decide (s = "") then "segment_" +:+ pretty i else s
  | None => "segment_" +:+ pretty i
  end.

(** The "Emotion heuristic" of the loop body. *)
Definition emotionOf (text : string) : Emotion :=
  if Js.includes text "!" then energetic
  else if Js.includes text "?" then firm
  else neutral.

(** [15 + Math.floor((i / transcription.segments.length) * 55)] *)
Definition segment_progress (i n : nat) : Z :=
  15 + Js.floor (Qc_of_Z (Z.of_nat i) / Qc_of_Z (Z.of_nat n) * Qc_of_Z 55)%Qc.

(** One iteration of the [for] loop, for [seg = transcription.segments[i]]
    of [n] segments. *)
Definition loop_body (extractedAudio jobId : string) (n i : nat)
    (seg : Segment) (st : LoopState) : M LoopState :=
  (* preserve silence *)
  let gap := (start seg - lastEnd st)%Qc in
  timeline1 ← (if decide (0 < gap)%Qc then
                 silence ← tempFile ".wav";
                 createSilence gap silence;;
                 mret (timeline st ++ [silence])
               else mret (timeline st));
  translated ← translate (text seg);
  (* Determine gender *)
  let speakerKey := speakerKey seg i in
  '(gender, speakerGender1) ←
     match speakerGender st !! speakerKey with
     | None =>
         segmentAudio ← tempFile ".wav";
         _ ← execFileAsync
               ["-i"; extractedAudio; "-ss"; numberToString env (start seg);
                "-to"; numberToString env (end_ seg); "-c"; "copy"; segmentAudio];
         gender ← detectGender segmentAudio;
         safeUnlink segmentAudio;;
         mret (gender, <[speakerKey := gender]> (speakerGender st))
     | Some gender => mret (gender, speakerGender st)
     end;
  (* Voice variation per speaker *)
  let speakerIndex1 :=
    match speakerIndex st !! speakerKey with
    | Some (S _) => speakerIndex st
    | _ => <[speakerKey := 0%nat]> (speakerIndex st)
    end in
  let index := default 0%nat (speakerIndex1 !! speakerKey) in
  let speakerIndex2 := <[speakerKey := S index]> speakerIndex1 in
  voice ← assignVoice gender index;
  (* Emotion heuristic *)
  let emotion := emotionOf (text seg) in
  spoken ← tempFile ".mp3";
  speak translated voice spoken emotion;;
  let timeline2 := timeline1 ++ [spoken] in
  progressMap_set jobId (segment_progress i n);;
  mret (mkLoopState timeline2 (end_ seg) speakerGender1 speakerIndex2).

(** The loop from index [i] on, over the segments that are left. *)
Fixpoint segment_loop (extractedAudio jobId : string) (n i : nat)
    (segs : list Segment) (st : LoopState) : M LoopState :=
  match segs with
  | [] => mret st
  | seg :: rest =>
      st1 ← loop_body extractedAudio jobId n i seg st;
      segment_loop extractedAudio jobId n (S i) rest st1
  end.

Definition initial_state : LoopState := mkLoopState [] (Qc_of_Z 0) ∅ ∅.

Definition transcribe (extractedAudio : string) : M (list Segment) := fun w =>
  let w1 := log (TranscriptionsCreate extractedAudio) w in
  match whisper env (history w) extractedAudio with
  | None => (Throw (ApiError "audio.transcriptions"), w1)
  | Some segments => (Ok segments, w1)
  end.

(** [timeline.forEach(safeUnlink)] *)
Fixpoint forEach_safeUnlink (paths : list string) : M unit :=
  match paths with
  | [] => mret tt
  | p :: rest => safeUnlink p;; forEach_safeUnlink rest
  end.

(** [dubVideo] up to the publication of the output: the result is the
    three local variables that the last three statements use. *)
Definition dubVideo_stages (inputPath jobId : string) : M (string * string * list string) :=
  extractedAudio ← tempFile ".wav";
  dubbedAudio ← tempFile ".wav";
  outputVideo ← tempFile ".mp4";
  progressMap_set jobId 5;;
  extractAudio inputPath extractedAudio;;
  progressMap_set jobId 15;;
  segments ← transcribe extractedAudio;
  st ← segment_loop extractedAudio jobId (length segments) 0 segments initial_state;
  progressMap_set jobId 75;;
  concatAudio (timeline st) dubbedAudio;;
  (* BACKGROUND AUDIO PRESERVED *)
  progressMap_set jobId 90;;
  _ ← execFileAsync
        ["-i"; inputPath; "-i"; dubbedAudio; "-filter_complex";
         "[0:a]volume=0.15[a0];[1:a]volume=1.0[a1];[a0][a1]amix=inputs=2:dropout_transition=0[aout]";
         "-map"; "0:v:0"; "-map"; "[aout]"; "-c:v"; "copy"; "-shortest"; outputVideo];
  progressMap_set jobId 100;;
  outputMap_set jobId outputVideo;;
  mret (extractedAudio, dubbedAudio, timeline st).

Definition dubVideo (inputPath jobId : string) : M unit :=
  '(extractedAudio, dubbedAudio, timeline) ← dubVideo_stages inputPath jobId;
  safeUnlink extractedAudio;;
  safeUnlink dubbedAudio;;
  forEach_safeUnlink timeline.

(** ** [routes/dub.route.ts] *)

(** START JOB, for the upload stored at [path] and the identifier [jobId]
    that [uuid()] returned: the world once the background task has
    settled. *)
Definition startJob (path jobId : string) : World -> World := fun w =>
  match (progressMap_set jobId 0;; dubVideo path jobId) w with
  | (Ok _, w1) => w1
  | (Throw err, w1) =>
      snd ((emit (ConsoleError "" err);; progressMap_set jobId (-1)) w1)
  end.

(** PROGRESS STREAM: one firing of the timer.  The result is the text
    written to the response and whether the stream is closed. *)
Definition progress_tick (id : string) (w : World) : string * bool :=
  let progress := default 0 (progressMap w !! id) in
  ("data: " +:+ pretty progress +:+ "

",
   bool_decide (100 <= progress) || bool_decide (progress < 0)).

(** The firings of the timer: [ws] holds the world at each firing that is
    still due; the writes so far and whether the stream is closed. *)
Fixpoint progress_stream (id : string) (ws : list World) : list string * bool :=
  match ws with
  | [] => ([], false)
  | w :: rest =>
      let '(data, closed) := progress_tick id w in
      if closed then ([data], true)
      else let '(more, c) := progress_stream id rest in (data :: more, c)
  end.

Inductive Response :=
| NotFound
| Download (file name : string) (content : option string).

(** DOWNLOAD: the response, and the world after the callback of
    [res.download] has run. *)
Definition download (jobId : string) (w : World) : Response * World :=
  match outputMap w !! jobId with
  | None => (NotFound, w)
  | Some file =>
      if decide (file = "") then (NotFound, w)
      else
        let w1 := snd (safeUnlink file w) in
        let w2 := log (OutputDelete jobId) (set_outputMap (delete jobId (outputMap w1)) w1) in
        let w3 := log (ProgressDelete jobId) (set_progressMap (delete jobId (progressMap w2)) w2) in
        (Download file "dubbed.mp4" (files w !! file), w3)
  end.

End Program.

(** ** Views of a trace *)

(** The values written to the progress registry for one job. *)
Definition progress_of (id : string) (e : Event) : option Z :=
  match e with
  | ProgressSet i v => if decide (i = id) then Some v else None
  | _ => None
  end.

Definition progress_writes (id : string) (tr : list Event) : list Z :=
  omap (progress_of id) tr.

(** The calls of [speak]: text, voice, output path and emotion. *)
Definition speak_of (e : Event) : option (string * string * string * Emotion) :=
  match e with
  | CallSpeak t v o em => Some (t, v, o, em)
  | _ => None
  end.

Definition speak_calls (tr : list Event) : list (string * string * string * Emotion) :=
  omap speak_of tr.

(** The genders that [assignVoice] was called with (it logs each one). *)
Definition gender_of (e : Event) : option Gender :=
  match e with
  | ConsoleLog _ g => Some g
  | _ => None
  end.

Definition genders_logged (tr : list Event) : list Gender := omap gender_of tr.

Definition astats_args (audioFile : string) : list string :=
  ["-i"; audioFile; "-af"; "astats=metadata=1:reset=1"; "-f"; "null"; "-"].

(** The runs of gender detection: the clip each one measured. *)
Definition detection_of (e : Event) : option string :=
  match e with
  | ExecFile [a; f; b; c; d; e; g] =>
      if decide (astats_args f = [a; f; b; c; d; e; g]) then Some f else None
  | _ => None
  end.

Definition detections (tr : list Event) : list string := omap detection_of tr.

(** The clip extractions for gender detection: the clip each one wrote. *)
Definition cut_of (e : Event) : option string :=
  match e with
  | ExecFile [a; _; b; _; c; _; d; e; out] =>
      if decide ([a; b; c; d; e] = ["-i"; "-ss"; "-to"; "-c"; "copy"])
      then Some out else None
  | _ => None
  end.

Definition clip_cuts (tr : list Event) : list string := omap cut_of tr.

(** What matters to the timeline: a silence clip generated with the
    duration argument given to ffmpeg, a segment text sent to translation,
    a speech clip synthesised. *)
Inductive Mark :=
| SilenceClip (path duration : string)
| SourceText (text : string)
| SpeechClip (path : string).

Definition lavfi_args (duration output : string) : list string :=
  ["-f"; "lavfi"; "-i"; "anullsrc=r=44100:cl=mono"; "-t"; duration; output].

Definition mark_of (e : Event) : option Mark :=
  match e with
  | ExecFile [a; b; c; d; e; duration; out] =>
      if decide (lavfi_args duration out = [a; b; c; d; e; duration; out])
      then Some (SilenceClip out duration) else None
  | ChatCompletionsCreate t => Some (SourceText t)
  | CallSpeak _ _ out _ => Some (SpeechClip out)
  | _ => None
  end.

Definition marks (tr : list Event) : list Mark := omap mark_of tr.

Definition path_of (m : Mark) : option string :=
  match m with
  | SilenceClip p _ => Some p
  | SpeechClip p => Some p
  | SourceText _ => None
  end.

Definition clip_paths (ms : list Mark) : list string := omap path_of ms.

(** The voice pool of a gender. *)
Definition pool (g : Gender) : list string :=
  match g with male => maleVoices | female => femaleVoices end.

(** ** What an iteration and a run of the loop did *)

(** The index that [speakerIndex[speakerKey]++] reads. *)
Definition rotation_index (st : LoopState) (key : string) : nat :=
  default 0%nat (speakerIndex st !! key).

(** What a successful iteration did. *)
Record IterationOk (id : string) (n i : nat) (seg : Segment)
    (st st' : LoopState) (d : list Event) : Prop := {
  it_marks : exists sil spoken,
    marks d = sil ++ [SourceText (text seg); SpeechClip spoken] /\
    (if decide (0 < start seg - lastEnd st)%Qc
     then exists p, sil = [SilenceClip p (Js.toFixed 2 (start seg - lastEnd st)%Qc)]
     else sil = []);
  it_timeline : timeline st' = timeline st ++ clip_paths (marks d);
  it_paths : Forall (fun p => p <> "") (clip_paths (marks d));
  it_lastEnd : lastEnd st' = end_ seg;
  it_speak : exists translated spoken g,
    speak_calls d =
      [(translated, pool g !!! (rotation_index st (speakerKey seg i) `mod` 4)%nat,
        spoken, emotionOf (text seg))] /\
    genders_logged d = [g] /\
    speakerGender st' !! speakerKey seg i = Some g;
  it_cached : forall g, speakerGender st !! speakerKey seg i = Some g ->
    speakerGender st' = speakerGender st /\ detections d = [] /\ clip_cuts d = [];
  it_fresh : speakerGender st !! speakerKey seg i = None ->
    exists g clip, speakerGender st' = <[speakerKey seg i := g]> (speakerGender st) /\
      detections d = [clip] /\ clip_cuts d = [clip];
  it_index : speakerIndex st' !! speakerKey seg i
             = Some (S (rotation_index st (speakerKey seg i)));
  it_index_other : forall k, k <> speakerKey seg i ->
    rotation_index st' k = rotation_index st k;
  it_progress : progress_writes id d = [segment_progress i n];
}.

(** The keys of the segments from index [i] on. *)
Definition keys_from (i : nat) (segs : list Segment) : list string :=
  imap (fun j seg => speakerKey seg (i + j)) segs.

(** A successful run of the loop from index [i]: one trace per iteration. *)
Inductive LoopOk (id : string) (n : nat) :
    nat -> list Segment -> LoopState -> LoopState -> list (list Event) -> Prop :=
| LoopOk_nil i st : LoopOk id n i [] st st []
| LoopOk_cons i seg rest st st1 st' d ds :
    IterationOk id n i seg st st1 d ->
    LoopOk id n (S i) rest st1 st' ds ->
    LoopOk id n i (seg :: rest) st st' (d :: ds).


(** ** The statements of the specification *)

(** The events of a run that started in [w] and ended in [w']. *)
Definition events_since (w w' : World) : list Event :=
  drop (length (trace w)) (trace w').

(** A place of the reconstructed timeline: silence of some duration, or the
    speech of a segment, named by its source text. *)
Inductive Slot (D : Type) :=
| SilenceFor (duration : D)
| SpeechFor (text : string).
Arguments SilenceFor {D} duration.
Arguments SpeechFor {D} text.


(** The marks that clips at [paths] leave when they fill [slots] in order. *)
Fixpoint slot_marks (paths : list string) (slots : list (Slot string)) : list Mark :=
  match slots, paths with
  | SilenceFor d :: slots', p :: paths' => SilenceClip p d :: slot_marks paths' slots'
  | SpeechFor t :: slots', p :: paths' =>
      SourceText t :: SpeechClip p :: slot_marks paths' slots'
  | _, _ => []
  end.



(** The voices given to [speak], in order. *)
Definition voices_of (tr : list Event) : list string :=
  map (fun c => c.1.1.2) (speak_calls tr).

(** The emotions given to [speak], in order. *)
Definition emotions_of (tr : list Event) : list Emotion :=
  map (fun c => c.2) (speak_calls tr).

(** The requests sent to the speech endpoint. *)
Definition speech_requests (tr : list Event) : list SpeechRequest :=
  omap (fun e => match e with SpeechCreate req => Some req | _ => None end) tr.

(** Of [xs], the elements at the positions where [keys] holds [k]. *)
Definition assigned_to {X} (k : string) (keys : list string) (xs : list X) : list X :=
  map snd (filter (fun p => p.1 = k) (zip keys xs)).


(** [sub] occurs in [t]. *)
Definition contains (t sub : string) : Prop :=
  exists pre post, t = pre +:+ sub +:+ post.

(** ** A small world to run the program in *)

Definition ratio (a b : Z) : Qc := (Qc_of_Z a / Qc_of_Z b)%Qc.

(** Every process and every call succeeds; the loudness report has one
    window at -20.5 dB; the transcription is [segments], or the call is
    rejected when there is none. *)
Definition demo_env (segments : option (list Segment)) : Env :=
  mkEnv (fun _ _ => Some ("RMS level dB: -20.5", "RIFF"))
        (fun _ _ => segments)
        (fun _ t => Some (" EN " +:+ t))
        (fun _ req => Some (voice req +:+ ":" +:+ input req))
        (fun h => Z.of_nat (length h))
        (fun _ => "0.5")
        "/tmp"
        (Js.toFixed 2).

Definition empty_world : World := mkWorld ∅ ∅ ∅ [].

(** 0-2 s and 3.234-5 s of one speaker, then 5-6 s of another. *)
Definition demo_segments : list Segment :=
  [mkSegment (ratio 0 1) (ratio 2 1) "ni hao!" (Some "A");
   mkSegment (ratio 3234 1000) (ratio 5 1) "ni hao?" (Some "A");
   mkSegment (ratio 5 1) (ratio 6 1) "hao" None].

(** The loop on the demo segments, and its result. *)
Definition demo_loop : Result LoopState * World :=
  segment_loop (demo_env None) "/tmp/a.wav" "job" 3 0 demo_segments initial_state
    empty_world.

Definition demo_state : LoopState :=
  match demo_loop.1 with
  | Ok st => st
  | Throw _ => initial_state
  end.

(** Five segments of one speaker and one of another. *)
Definition rotation_segments : list Segment :=
  [mkSegment (ratio 0 1) (ratio 1 1) "a" (Some "A");
   mkSegment (ratio 1 1) (ratio 2 1) "b" (Some "A");
   mkSegment (ratio 2 1) (ratio 3 1) "c" (Some "B");
   mkSegment (ratio 3 1) (ratio 4 1) "d" (Some "A");
   mkSegment (ratio 4 1) (ratio 5 1) "e" (Some "A");
   mkSegment (ratio 5 1) (ratio 6 1) "f" (Some "A")].

Definition rotation_loop : Result LoopState * World :=
  segment_loop (demo_env None) "/tmp/a.wav" "job" 6 0 rotation_segments initial_state
    empty_world.


(** A world where every ffmpeg process fails, and one where ffmpeg runs but
    reports no loudness. *)
Definition failing_env : Env :=
  mkEnv (fun _ _ => None) (fun _ _ => None) (fun _ _ => None) (fun _ _ => None)
        (fun h => Z.of_nat (length h)) (fun _ => "0.5") "/tmp" (Js.toFixed 2).

Definition silent_env : Env :=
  mkEnv (fun _ _ => Some ("size=N/A time=00:00:02.00 bitrate=N/A", "RIFF"))
        (fun _ _ => None) (fun _ _ => None) (fun _ _ => None)
        (fun h => Z.of_nat (length h)) (fun _ => "0.5") "/tmp" (Js.toFixed 2).

(** The stream of writes that a job id absent from the registry gets. *)
Definition zero_event : string := "data: 0

".


(** ** Further notions for the properties of the code *)

(** [m] never changes the observation [f] of the world. *)
Definition keeps {X A} (f : World -> X) (m : M A) : Prop :=
  forall w r w', m w = (r, w') -> f w' = f w.

(** The value that a firing of the progress timer reads for [id]. *)
Definition reading (id : string) (w : World) : Z :=
  default 0 (progressMap w !! id).

(** The text that a firing of the timer writes for a value. *)
Definition progress_event (v : Z) : string := "data: " +:+ pretty v +:+ "

".

(** A reading that closes the stream. *)
Definition terminal (id : string) (w : World) : Prop :=
  100 <= reading id w \/ reading id w < 0.

Global Instance terminal_dec id w : Decision (terminal id w).
Proof. unfold terminal. apply _. Defined.

(** Every recorded output belongs to a job at progress 100. *)
Definition registries_consistent (w : World) : Prop :=
  forall id p, outputMap w !! id = Some p -> progressMap w !! id = Some 100.

(** A world with another job under way and an older output on offer. *)
Definition busy_world : World :=
  mkWorld {["/tmp/old.mp4" := "RIFF"]} {["other" := 40; "old" := 100]}
    {["old" := "/tmp/old.mp4"]} [].

(** A segment without a usable speaker label: the field is absent or the
    empty string. *)
Definition unlabelled (seg : Segment) : Prop :=
  speaker seg = None \/ speaker seg = Some "".

(** The first voice of each pool. *)
Definition first_voice (g : Gender) : string :=
  match g with male => "onyx" | female => "alloy" end.

(** Three segments as the transcription returns them, without labels. *)
Definition unlabelled_segments : list Segment :=
  [mkSegment (ratio 0 1) (ratio 1 1) "a" None;
   mkSegment (ratio 1 1) (ratio 2 1) "b" (Some "");
   mkSegment (ratio 2 1) (ratio 3 1) "c" None].

Definition unlabelled_loop : Result LoopState * World :=
  segment_loop (demo_env None) "/tmp/a.wav" "job" 3 0 unlabelled_segments initial_state
    empty_world.

Definition unlabelled_state : LoopState :=
  match unlabelled_loop.1 with
  | Ok st => st
  | Throw _ => initial_state
  end.

(** Every character of [s] satisfies [P]. *)
Definition all_chars (P : ascii -> Prop) (s : string) : Prop :=
  Forall P (list_ascii_of_string s).

(** The line of the concat list for one clip. *)
Definition concat_line (f : string) : string := "file '" +:+ f +:+ "'".

Definition newline : ascii := "010"%char.


(** The label for a list of loudness values, as the code decides it: male
    for no value at all, otherwise female exactly when the mean is below
    -12.5 dB. *)
Definition gender_of_values (vs : list Qc) : Gender :=
  match vs with
  | [] => male
  | _ =>
      if decide (fold_left Qcplus vs (Qc_of_Z 0) / Qc_of_Z (Z.of_nat (length vs))
                 < - (Qc_of_Z 125 / Qc_of_Z 10))%Qc
      then female else male
  end.





(** * Properties

    ** The built-ins on examples *)



Example toFixed_1 : Js.toFixed 2 (Qc_of_Z 1234 / Qc_of_Z 1000)%Qc = "1.23".
Proof. vm_compute. reflexivity. Qed.
Example toFixed_2 : Js.toFixed 2 (Qc_of_Z 4 / Qc_of_Z 1000)%Qc = "0.00".
Proof. vm_compute. reflexivity. Qed.
Example toFixed_3 : Js.toFixed 2 (Qc_of_Z 5 / Qc_of_Z 1000)%Qc = "0.01".
Proof. vm_compute. reflexivity. Qed.
Example toFixed_4 : Js.toFixed 2 (Qc_of_Z 125)%Qc = "125.00".
Proof. vm_compute. reflexivity. Qed.
Example parseFloat_1 :
  (fun o : option Qc => match o with Some q => Qeq_bool q (-2345 # 100) | None => false end)
    (Js.parseFloat "-23.45") = true.
Proof. vm_compute. reflexivity. Qed.
Example trim_1 : Js.trim "  a b
 " = "a b".
Proof. vm_compute. reflexivity. Qed.
Example split_1 : Js.split ":" "RMS level dB: -23.45" = ["RMS level dB"; " -23.45"].
Proof. vm_compute. reflexivity. Qed.

(** Each view is computed event by event. *)

Lemma marks_app a b : marks (a ++ b) = marks a ++ marks b.
Proof. apply omap_app. Qed.

Lemma marks_cons e l :
  marks (e :: l) = match mark_of e with Some x => x :: marks l | None => marks l end.
Proof. reflexivity. Qed.

Lemma marks_nil : marks [] = [].
Proof. reflexivity. Qed.

Lemma speak_calls_app a b : speak_calls (a ++ b) = speak_calls a ++ speak_calls b.
Proof. apply omap_app. Qed.

Lemma speak_calls_cons e l :
  speak_calls (e :: l) = match speak_of e with Some x => x :: speak_calls l | None => speak_calls l end.
Proof. reflexivity. Qed.

Lemma speak_calls_nil : speak_calls [] = [].
Proof. reflexivity. Qed.

Lemma genders_logged_app a b : genders_logged (a ++ b) = genders_logged a ++ genders_logged b.
Proof. apply omap_app. Qed.

Lemma genders_logged_cons e l :
  genders_logged (e :: l) = match gender_of e with Some x => x :: genders_logged l | None => genders_logged l end.
Proof. reflexivity. Qed.

Lemma genders_logged_nil : genders_logged [] = [].
Proof. reflexivity. Qed.

Lemma detections_app a b : detections (a ++ b) = detections a ++ detections b.
Proof. apply omap_app. Qed.

Lemma detections_cons e l :
  detections (e :: l) = match detection_of e with Some x => x :: detections l | None => detections l end.
Proof. reflexivity. Qed.

Lemma detections_nil : detections [] = [].
Proof. reflexivity. Qed.

Lemma clip_cuts_app a b : clip_cuts (a ++ b) = clip_cuts a ++ clip_cuts b.
Proof. apply omap_app. Qed.

Lemma clip_cuts_cons e l :
  clip_cuts (e :: l) = match cut_of e with Some x => x :: clip_cuts l | None => clip_cuts l end.
Proof. reflexivity. Qed.

Lemma clip_cuts_nil : clip_cuts [] = [].
Proof. reflexivity. Qed.

Lemma clip_paths_app a b : clip_paths (a ++ b) = clip_paths a ++ clip_paths b.
Proof. apply omap_app. Qed.

Lemma clip_paths_cons e l :
  clip_paths (e :: l) = match path_of e with Some x => x :: clip_paths l | None => clip_paths l end.
Proof. reflexivity. Qed.

Lemma clip_paths_nil : clip_paths [] = [].
Proof. reflexivity. Qed.

Lemma progress_writes_app id a b : progress_writes id (a ++ b) = progress_writes id a ++ progress_writes id b.
Proof. apply omap_app. Qed.

Lemma progress_writes_cons id e l :
  progress_writes id (e :: l) = match progress_of id e with Some x => x :: progress_writes id l | None => progress_writes id l end.
Proof. reflexivity. Qed.

Lemma progress_writes_nil id : progress_writes id [] = [].
Proof. reflexivity. Qed.

Lemma mark_of_lavfi d out : mark_of (ExecFile (lavfi_args d out)) = Some (SilenceClip out d).
Proof. unfold mark_of, lavfi_args. by rewrite decide_True. Qed.

Lemma detection_of_astats f : detection_of (ExecFile (astats_args f)) = Some f.
Proof. unfold detection_of, astats_args. by rewrite decide_True. Qed.

Lemma progress_of_same id v : progress_of id (ProgressSet id v) = Some v.
Proof. unfold progress_of. by rewrite decide_True. Qed.

Lemma mark_of_astats f : mark_of (ExecFile (astats_args f)) = None.
Proof. unfold mark_of, astats_args, lavfi_args. by rewrite decide_False. Qed.

Lemma detection_of_lavfi d out : detection_of (ExecFile (lavfi_args d out)) = None.
Proof. unfold detection_of, astats_args, lavfi_args. by rewrite decide_False. Qed.

(** ** How each function extends the trace *)

Section Runs.
Context (env : Env).

Lemma tempFile_inv ext w r w' :
  tempFile env ext w = (r, w') ->
  exists p, r = Ok p /\ p <> "" /\ files w' = files w /\
    trace w' = trace w ++ [TempName p].
Proof.
  unfold tempFile. intros [= <- <-]. eexists. split; [done|]. split; [|done].
  destruct (tmpdir env); discriminate.
Qed.

Lemma execFileAsync_inv args w r w' :
  execFileAsync env args w = (r, w') ->
  trace w' = trace w ++ [ExecFile args].
Proof.
  unfold execFileAsync. destruct (ffmpeg env _ _) as [[stderr data]|].
  - intros [= <- <-]. case_decide; done.
  - intros [= <- <-]. done.
Qed.

Lemma translate_inv t w r w' :
  translate env t w = (r, w') ->
  trace w' = trace w ++ [ChatCompletionsCreate t].
Proof. unfold translate. destruct (chat env _ _); intros [= <- <-]; done. Qed.

Lemma rms_values_world l w : snd (rms_values l w) = w.
Proof.
  revert w. induction l as [|v l IH]; intros w; simpl; [done|].
  case_match; [|done]. unfold mbind, M_bind.
  specialize (IH w). destruct (rms_values l w) as [[]]; simpl in *; done.
Qed.

Lemma gender_of_stderr_world s w : snd (gender_of_stderr s w) = w.
Proof.
  unfold gender_of_stderr. case_match; [|done].
  unfold mbind, M_bind. pose proof (rms_values_world (match_rms s) w) as Hv.
  destruct (rms_values _ w) as [[]]; simpl in *; done.
Qed.

(** [detectGender] always returns: one ffmpeg call, and one line on the
    console when the [catch] clause ran. *)
Lemma detectGender_inv f w r w' :
  detectGender env f w = (r, w') ->
  exists g, r = Ok g /\ files w' = files w /\
    (trace w' = trace w ++ [ExecFile (astats_args f)] \/
     exists err,
       trace w' = trace w ++ [ExecFile (astats_args f);
                              ConsoleError "Gender detection failed, defaulting to male:"
                                err]).
Proof.
  unfold detectGender, try_catch, mbind, M_bind, execFileAsync.
  destruct (ffmpeg env (history w) _) as [[stderr data]|].
  - simpl.
    pose proof (gender_of_stderr_world stderr (log (ExecFile (astats_args f)) w)) as H.
    unfold astats_args in H.
    destruct (gender_of_stderr stderr _) as [[g|e] w1]; simpl in H; subst w1.
    + intros [= <- <-]. exists g. simpl. auto.
    + unfold emit, mret, M_ret. intros [= <- <-]. exists female. simpl.
      rewrite <- app_assoc. eauto.
  - unfold emit, mret, M_ret. intros [= <- <-]. exists female. simpl.
    rewrite <- app_assoc. eauto.
Qed.

(** What [detectGender] returns when the process fails, and when it runs
    and reports no RMS value. *)
Lemma detectGender_rejected audioFile w :
  ffmpeg env (history w) (astats_args audioFile) = None ->
  (detectGender env audioFile w).1 = Ok female.
Proof.
  intros H. unfold detectGender, try_catch, mbind, M_bind, execFileAsync.
  unfold astats_args in H. by rewrite H.
Qed.

Lemma detectGender_no_match audioFile stderr data w :
  ffmpeg env (history w) (astats_args audioFile) = Some (stderr, data) ->
  match_rms stderr = [] ->
  (detectGender env audioFile w).1 = Ok male.
Proof.
  intros H Hm. unfold detectGender, try_catch, mbind, M_bind, execFileAsync.
  unfold astats_args in H. rewrite H. simpl.
  unfold gender_of_stderr. by rewrite Hm.
Qed.

Lemma safeUnlink_inv f w r w' :
  safeUnlink f w = (r, w') ->
  r = Ok tt /\ (trace w' = trace w \/ trace w' = trace w ++ [Unlink f]).
Proof. unfold safeUnlink. case_decide; intros [= <- <-]; simpl; auto. Qed.

Lemma assignVoice_inv g index w r w' :
  assignVoice g index w = (r, w') ->
  r = Ok (pool g !!! (index `mod` 4)%nat) /\
  trace w' = trace w ++ [ConsoleLog "jkhjkhk" g].
Proof.
  unfold assignVoice, emit, mbind, M_bind, mret, M_ret.
  destruct g; intros [= <- <-]; auto.
Qed.

Lemma speak_inv t v out em w r w' :
  speak env t v out em w = (r, w') ->
  exists tl, trace w' = trace w ++ CallSpeak t v out em :: tl /\
    marks tl = [] /\ speak_calls tl = [] /\ genders_logged tl = [] /\
    detections tl = [] /\ clip_cuts tl = [] /\ (forall id, progress_writes id tl = []).
Proof.
  unfold speak, emit, writeFileSync, mbind, M_bind.
  destruct (tts env _ _) as [bytes|]; intros [= <- <-]; simpl;
    rewrite <- ?app_assoc; simpl; eexists; (split; [reflexivity|]);
    repeat split; intros; reflexivity.
Qed.

Lemma writeFileSync_inv path data w r w' :
  writeFileSync path data w = (r, w') ->
  r = Ok tt /\ trace w' = trace w ++ [WriteFile path data].
Proof. unfold writeFileSync. intros [= <- <-]. auto. Qed.

Lemma progressMap_set_inv id v w r w' :
  progressMap_set id v w = (r, w') ->
  r = Ok tt /\ trace w' = trace w ++ [ProgressSet id v].
Proof. unfold progressMap_set. intros [= <- <-]. auto. Qed.

Lemma createSilence_inv seconds out w r w' :
  (0 < seconds)%Qc ->
  createSilence env seconds out w = (r, w') ->
  trace w' = trace w ++ [ExecFile (lavfi_args (Js.toFixed 2 seconds) out)].
Proof.
  intros Hpos. unfold createSilence. case_decide as Hle.
  - by apply Qclt_not_le in Hpos.
  - unfold mbind, M_bind, mret, M_ret. intros H.
    destruct (execFileAsync _ _ _) as [r0 w0] eqn:E.
    apply execFileAsync_inv in E. destruct r0; simplify_eq; exact E.
Qed.

End Runs.

Global Opaque lavfi_args astats_args.

(** Rewriting a view of an explicit list of events. *)
Ltac views :=
  rewrite ?marks_app, ?speak_calls_app, ?genders_logged_app, ?detections_app,
    ?clip_cuts_app, ?progress_writes_app;
  rewrite ?marks_cons, ?speak_calls_cons, ?genders_logged_cons, ?detections_cons,
    ?clip_cuts_cons, ?progress_writes_cons,
    ?marks_nil, ?speak_calls_nil, ?genders_logged_nil, ?detections_nil,
    ?clip_cuts_nil, ?progress_writes_nil;
  rewrite ?mark_of_lavfi, ?mark_of_astats, ?detection_of_astats, ?detection_of_lavfi,
    ?progress_of_same;
  cbn [mark_of speak_of gender_of detection_of cut_of progress_of];
  rewrite ?decide_True by reflexivity.
(** ** One iteration of the loop *)

Ltac inv_run H :=
  repeat match type of H with
         | context [match ?x with _ => _ end] => destruct x eqn:?; simplify_eq
         end.

Ltac inv_steps env :=
  repeat match goal with
         | H : tempFile env _ _ = _ |- _ => apply tempFile_inv in H as (? & ? & ? & _ & H)
         | H : execFileAsync env _ _ = _ |- _ => apply execFileAsync_inv in H
         | H : translate env _ _ = _ |- _ => apply translate_inv in H
         | H : detectGender env _ _ = _ |- _ => apply detectGender_inv in H as (? & ? & _ & H)
         | H : safeUnlink _ _ = _ |- _ => apply safeUnlink_inv in H as (? & H)
         | H : assignVoice _ _ _ = _ |- _ => apply assignVoice_inv in H as (? & H)
         | H : speak env _ _ _ _ _ = _ |- _ =>
             apply speak_inv in H as (? & H & ? & ? & ? & ? & ? & ?)
         | H : progressMap_set _ _ _ = _ |- _ => apply progressMap_set_inv in H as (? & H)
         | H : writeFileSync _ _ _ = _ |- _ => apply writeFileSync_inv in H as (? & H)
         | H : createSilence env _ _ _ = _ |- _ => apply createSilence_inv in H; [|assumption]
         | H : _ \/ _ |- _ => destruct H
         | H : exists err : Exn, _ |- _ => destruct H
         end;
  simplify_eq.

Ltac chain_traces :=
  repeat match goal with
         | H : trace ?w = _ |- _ => rewrite H in *; clear H
         end;
  rewrite <- ?app_assoc.

Ltac use_quiet :=
  repeat match goal with
         | H : _ = [] |- _ => rewrite H
         | H : forall id, progress_writes id _ = [] |- _ => rewrite H
         end.

Section Body.
Context (env : Env).

Lemma rotation_read (m : gmap string nat) k :
  default 0%nat (match m !! k with
                 | Some (S _) => m
                 | _ => <[k := 0%nat]> m
                 end !! k) = default 0%nat (m !! k).
Proof.
  destruct (m !! k) as [[|j]|] eqn:E; rewrite ?E, ?lookup_insert_eq; done.
Qed.

Lemma rotation_other (m : gmap string nat) k k' j :
  k' <> k ->
  (<[k := j]> (match m !! k with
               | Some (S _) => m
               | _ => <[k := 0%nat]> m
               end)) !! k' = m !! k'.
Proof.
  intros Hne. rewrite lookup_insert_ne by done.
  destruct (m !! k) as [[|?]|]; rewrite ?lookup_insert_ne; done.
Qed.

Lemma loop_body_ok ea id n i seg st w st' w' :
  loop_body env ea id n i seg st w = (Ok st', w') ->
  exists d, trace w' = trace w ++ d /\ IterationOk id n i seg st st' d.
Proof.
  unfold loop_body, mbind, M_bind, mret, M_ret. intros H.
  inv_run H. rewrite rotation_read in *.
  destruct (decide (0 < start seg - lastEnd st)%Qc) as [Hgap|Hgap];
    destruct (speakerGender st !! speakerKey seg i) as [g'|] eqn:Hkey;
    inv_run Heqp; inv_run Heqp1; inv_steps env; chain_traces;
    (eexists; split; [reflexivity|]);
    (split; cbn [timeline lastEnd speakerGender speakerIndex]; rewrite ?rotation_read;
     [ views; use_quiet; simpl;
       first [ eexists [_], _; split; [reflexivity|]
             | eexists [], _; split; [reflexivity|] ];
       first [rewrite decide_True by done | rewrite decide_False by done]; eauto
     | views; use_quiet; simpl; by rewrite <- ?app_assoc
     | views; use_quiet; simpl; repeat constructor; assumption
     | done
     | views; use_quiet; simpl; eexists _, _, _;
       rewrite ?lookup_insert_eq; eauto
     | intros ? ?; simplify_eq; views; use_quiet; auto
     | intros ?; simplify_eq; views; use_quiet; simpl; eauto
     | by rewrite lookup_insert_eq
     | intros k Hk; unfold rotation_index; simpl; by rewrite rotation_other
     | views; use_quiet; done ]).
Qed.
(** An iteration that throws wrote no progress value, and measured a
    clip at most once, and only for a key without a cached gender. *)
Lemma loop_body_throw ea id n i seg st w e w' :
  loop_body env ea id n i seg st w = (Throw e, w') ->
  exists d, trace w' = trace w ++ d /\ progress_writes id d = [] /\
    (length (detections d) <= 1)%nat /\
    (is_Some (speakerGender st !! speakerKey seg i) -> detections d = []).
Proof.
  unfold loop_body, mbind, M_bind, mret, M_ret. intros H.
  inv_run H; rewrite ?rotation_read in *;
  destruct (decide (0 < start seg - lastEnd st)%Qc) as [Hgap|Hgap];
    destruct (speakerGender st !! speakerKey seg i) as [g'|] eqn:Hkey;
    repeat match goal with
           | H : _ = (_, _) |- _ => progress inv_run H
           end;
    inv_steps env; chain_traces;
    (eexists; split; [reflexivity|]);
    views; use_quiet; simpl; (split; [done|split; [lia|]]);
    intros [? ?]; simplify_eq; done.
Qed.

End Body.

(** ** The whole loop *)

Section Loop.
Context (env : Env).

Lemma segment_loop_ok ea id n segs : forall i st w st' w',
  segment_loop env ea id n i segs st w = (Ok st', w') ->
  exists ds, trace w' = trace w ++ concat ds /\ LoopOk id n i segs st st' ds.
Proof.
  induction segs as [|seg rest IH]; intros i st w st' w' H.
  - injection H as <- <-. exists []. split; [by rewrite app_nil_r|constructor].
  - simpl in H. unfold mbind, M_bind in H.
    destruct (loop_body env ea id n i seg st w) as [[st1|e] w1] eqn:Hbody; [|done].
    apply loop_body_ok in Hbody as (d & Hd & Hit).
    apply IH in H as (ds & Hds & Hloop).
    exists (d :: ds). split; [|by econstructor].
    simpl. rewrite Hds, Hd. by rewrite app_assoc.
Qed.

(** A run that throws completed some iterations and wrote their progress
    values, and nothing after. *)
Lemma segment_loop_throw ea id n segs : forall i st w e w',
  segment_loop env ea id n i segs st w = (Throw e, w') ->
  exists d k, trace w' = trace w ++ d /\ (k < length segs)%nat /\
    progress_writes id d = map (fun j => segment_progress j n) (seq i k).
Proof.
  induction segs as [|seg rest IH]; intros i st w e w' H; [done|].
  simpl in H. unfold mbind, M_bind in H.
  destruct (loop_body env ea id n i seg st w) as [[st1|e1] w1] eqn:Hbody.
  - apply loop_body_ok in Hbody as (d & Hd & Hit).
    apply IH in H as (d' & k & Hd' & Hk & Hw).
    exists (d ++ d'), (S k). split; [by rewrite Hd', Hd, app_assoc|].
    split; [simpl; lia|].
    rewrite progress_writes_app, (it_progress _ _ _ _ _ _ _ Hit), Hw. done.
  - simplify_eq. apply loop_body_throw in Hbody as (d & Hd & Hw & _).
    exists d, 0%nat. simpl. split; [done|]. split; [lia|done].
Qed.

End Loop.

Section LoopFacts.
Context (id : string) (n : nat).



Lemma LoopOk_progress i segs st st' ds :
  LoopOk id n i segs st st' ds ->
  progress_writes id (concat ds)
  = map (fun j => segment_progress j n) (seq i (length segs)).
Proof.
  induction 1 as [|i seg rest st st1 st' d ds Hit _ IH]; [done|].
  simpl. rewrite progress_writes_app, (it_progress _ _ _ _ _ _ _ Hit), IH. done.
Qed.

End LoopFacts.

(** ** The timeline *)

Lemma events_since_app w w' d : trace w' = trace w ++ d -> events_since w w' = d.
Proof. intros H. unfold events_since. rewrite H. by rewrite drop_app_length. Qed.

Lemma slot_marks_app p1 s1 p2 s2 :
  length p1 = length s1 ->
  slot_marks (p1 ++ p2) (s1 ++ s2) = slot_marks p1 s1 ++ slot_marks p2 s2.
Proof.
  revert s1. induction p1 as [|p p1 IH]; intros [|[d|t] s1] Hlen; simplify_eq/=;
    try done; by rewrite IH.
Qed.

Section Timeline.
Context (id : string) (n : nat).


End Timeline.





(** ** The voice rotation *)


Lemma keys_from_length i segs : length (keys_from i segs) = length segs.
Proof. unfold keys_from. by rewrite length_imap. Qed.







Example rotation_wraps :
  assigned_to "A" (keys_from 0 rotation_segments)
    (voices_of (events_since empty_world rotation_loop.2))
  = ["alloy"; "verse"; "fable"; "coral"; "alloy"].
Proof. vm_compute. reflexivity. Qed.


(** ** The emotion heuristic *)

Lemma append_cons c s t : String c s +:+ t = String c (s +:+ t).
Proof. reflexivity. Qed.

Lemma prefix_spec sub s : String.prefix sub s = true <-> exists post, s = sub +:+ post.
Proof.
  revert s. induction sub as [|a sub IH]; intros s.
  - destruct s; simpl; split; eauto.
  - destruct s as [|b s]; simpl.
    + split; [done|]. by intros [post ?].
    + destruct (ascii_dec a b) as [->|Hne].
      * rewrite IH. split; intros [post Hpost]; exists post;
          rewrite append_cons in *; congruence.
      * split; [done|]. intros [post Hpost]. rewrite append_cons in Hpost. congruence.
Qed.

Lemma includes_unfold s sub :
  Js.includes s sub
  = if String.prefix sub s then true
    else match s with
         | EmptyString => false
         | String _ rest => Js.includes rest sub
         end.
Proof. by destruct s. Qed.

(** [includes] finds exactly the occurrences of [sub]. *)
Lemma includes_spec t sub : Js.includes t sub = true <-> contains t sub.
Proof.
  split.
  - induction t as [|c t IH]; rewrite includes_unfold;
      destruct (String.prefix sub _) eqn:Hp.
    + intros _. apply prefix_spec in Hp as [post ->]. by exists "", post.
    + done.
    + intros _. apply prefix_spec in Hp as [post ->]. by exists "", post.
    + intros H. destruct (IH H) as (pre & post & ->). by exists (String c pre), post.
  - intros (pre & post & ->). induction pre as [|c pre IH]; rewrite includes_unfold.
    + assert (String.prefix sub ("" +:+ sub +:+ post) = true) as ->; [|done].
      apply prefix_spec. eauto.
    + rewrite append_cons. by destruct (String.prefix sub _).
Qed.

(** The heuristic in the words of the specification. *)
Lemma emotionOf_spec t :
  (contains t "!" -> emotionOf t = energetic) /\
  (~ contains t "!" -> contains t "?" -> emotionOf t = firm) /\
  (~ contains t "!" -> ~ contains t "?" -> emotionOf t = neutral).
Proof.
  unfold emotionOf. rewrite <- !includes_spec.
  destruct (Js.includes t "!"), (Js.includes t "?"); naive_solver.
Qed.

Lemma LoopOk_emotions id n i segs st st' ds :
  LoopOk id n i segs st st' ds ->
  emotions_of (concat ds) = map (fun seg => emotionOf (text seg)) segs.
Proof.
  induction 1 as [i st|i seg rest st st1 st' d ds Hit Hrest IH]; [done|].
  destruct (it_speak _ _ _ _ _ _ _ Hit) as (t & o & g0 & Hcall & _).
  unfold emotions_of in *. simpl. by rewrite speak_calls_app, Hcall, map_app, IH.
Qed.

(** C6.  When the loop succeeds, the emotion given to [speak] for each
    segment is decided by the source text of that segment, the text sent to
    translation: energetic if it contains an exclamation mark, otherwise
    firm if it contains a question mark, otherwise neutral. *)
Theorem emotion_from_source_text (env : Env) (extractedAudio jobId : string) (n : nat)
    (segs : list Segment) (w w' : World) (st' : LoopState) :
  segment_loop env extractedAudio jobId n 0 segs initial_state w = (Ok st', w') ->
  length (emotions_of (events_since w w')) = length segs /\
  forall j seg, segs !! j = Some seg ->
    exists e, emotions_of (events_since w w') !! j = Some e /\
      (contains (text seg) "!" -> e = energetic) /\
      (~ contains (text seg) "!" -> contains (text seg) "?" -> e = firm) /\
      (~ contains (text seg) "!" -> ~ contains (text seg) "?" -> e = neutral).
Proof.
  intros H. apply segment_loop_ok in H as (ds & Htr & Hloop).
  rewrite (events_since_app _ _ _ Htr), (LoopOk_emotions _ _ _ _ _ _ _ Hloop).
  split; [by rewrite length_map|].
  intros j seg Hj. exists (emotionOf (text seg)). split; [|apply emotionOf_spec].
  change (map (fun seg => emotionOf (text seg)) segs)
    with ((fun seg => emotionOf (text seg)) <$> segs).
  by rewrite list_lookup_fmap, Hj.
Qed.

Example emotions_demo :
  emotions_of (events_since empty_world demo_loop.2) = [energetic; firm; neutral].
Proof. vm_compute. reflexivity. Qed.

Lemma emotion_from_source_text_witness :
  length (emotions_of (events_since empty_world demo_loop.2)) = length demo_segments /\
  forall j seg, demo_segments !! j = Some seg ->
    exists e, emotions_of (events_since empty_world demo_loop.2) !! j = Some e /\
      (contains (text seg) "!" -> e = energetic) /\
      (~ contains (text seg) "!" -> contains (text seg) "?" -> e = firm) /\
      (~ contains (text seg) "!" -> ~ contains (text seg) "?" -> e = neutral).
Proof.
  apply (emotion_from_source_text (demo_env None) "/tmp/a.wav" "job" 3 demo_segments
           empty_world demo_loop.2 demo_state).
  vm_compute. reflexivity.
Defined.

(** ** The cache of genders *)






Example detections_demo :
  length (detections (events_since empty_world rotation_loop.2)) = 2%nat.
Proof. vm_compute. reflexivity. Qed.

(** ** Gender detection *)

(** [detectGender] never throws. *)
Lemma detectGender_total (env : Env) (audioFile : string) (w : World) :
  exists g, (detectGender env audioFile w).1 = Ok g.
Proof.
  destruct (detectGender env audioFile w) as [r w'] eqn:H.
  apply detectGender_inv in H as (g & -> & _). eauto.
Qed.

(** C3, on the code.  [detectGender] returns in both worlds, but with two
    defaults: female when the ffmpeg process fails (while the message it
    logs says male), male when ffmpeg runs and its output has no RMS
    value. *)
Theorem detectGender_defaults_differ :
  (detectGender failing_env "/tmp/clip.wav" empty_world).1 = Ok female /\
  ConsoleError "Gender detection failed, defaulting to male:"
      (ExecError (astats_args "/tmp/clip.wav"))
    ∈ trace (detectGender failing_env "/tmp/clip.wav" empty_world).2 /\
  match_rms "size=N/A time=00:00:02.00 bitrate=N/A" = [] /\
  (detectGender silent_env "/tmp/clip.wav" empty_world).1 = Ok male.
Proof.
  split; [by apply detectGender_rejected|].
  split; [vm_compute; set_solver|].
  split; [by vm_compute|].
  by eapply detectGender_no_match.
Qed.

Example detectGender_measures :
  (detectGender (demo_env None) "/tmp/clip.wav" empty_world).1 = Ok female.
Proof. vm_compute. reflexivity. Qed.

(** ** Synthesis *)

(** C10.  [speak] does the same with any two emotions: the same outcome,
    the same request to the speech endpoint, the same bytes in the same
    file and the same registries; the two traces differ only in the record
    of the call itself. *)
Theorem speak_ignores_emotion (env : Env) (text voice output : string)
    (e1 e2 : Emotion) (w : World) :
  let r1 := speak env text voice output e1 w in
  let r2 := speak env text voice output e2 w in
  r1.1 = r2.1 /\
  history r1.2 = history r2.2 /\
  files r1.2 = files r2.2 /\
  progressMap r1.2 = progressMap r2.2 /\
  outputMap r1.2 = outputMap r2.2 /\
  speech_requests (events_since w r1.2)
  = [mkSpeechRequest "gpt-4o-mini-tts" voice text] /\
  speech_requests (events_since w r2.2)
  = [mkSpeechRequest "gpt-4o-mini-tts" voice text].
Proof.
  unfold speak, emit, writeFileSync, mbind, M_bind. cbn zeta.
  assert (forall e, history (log (CallSpeak text voice output e) w) = history w) as H.
  { intros e. unfold history, log. simpl. rewrite filter_app.
    rewrite filter_cons_False by (simpl; done). by rewrite filter_nil, app_nil_r. }
  rewrite !H.
  destruct (tts env (history w) _) as [bytes|]; simpl;
    unfold history; simpl; rewrite !filter_app;
    rewrite !(filter_cons_False _ (CallSpeak _ _ _ _)) by (simpl; done);
    (repeat split; try done);
    unfold events_since; simpl; rewrite <- ?app_assoc, drop_app_length; done.
Qed.

(** ** The routes *)

Lemma download_run jobId w :
  download jobId w =
  match outputMap w !! jobId with
  | None => (NotFound, w)
  | Some file =>
      if decide (file = "") then (NotFound, w)
      else (Download file "dubbed.mp4" (files w !! file),
            (download jobId w).2)
  end.
Proof. unfold download. destruct (outputMap w !! jobId); [|done]. by case_decide. Qed.

Lemma download_retires jobId file w :
  outputMap w !! jobId = Some file -> file <> "" ->
  outputMap (download jobId w).2 !! jobId = None /\
  progressMap (download jobId w).2 !! jobId = None /\
  files (download jobId w).2 !! file = None.
Proof.
  intros Hout Hne. unfold download. rewrite Hout, decide_False by done. simpl.
  rewrite !lookup_delete_eq. split; [done|]. split; [done|].
  unfold safeUnlink. case_decide as Hex; simpl.
  - apply lookup_delete_eq.
  - destruct (files w !! file) eqn:E; [|done]. exfalso. apply Hex. eauto.
Qed.

(** C8.  A download for a job id without a recorded output answers
    not-found and changes nothing (a recorded empty path counts as none);
    with a recorded output it answers with that file under the name
    [dubbed.mp4] and leaves no output entry, no progress entry and no file
    at that path; in every case a second download for the same job id
    answers not-found. *)
Theorem download_at_most_once (jobId : string) (w : World) :
  match outputMap w !! jobId with
  | None => download jobId w = (NotFound, w)
  | Some file =>
      if decide (file = "") then download jobId w = (NotFound, w)
      else (download jobId w).1 = Download file "dubbed.mp4" (files w !! file) /\
           outputMap (download jobId w).2 !! jobId = None /\
           progressMap (download jobId w).2 !! jobId = None /\
           files (download jobId w).2 !! file = None
  end /\
  (download jobId (download jobId w).2).1 = NotFound.
Proof.
  split.
  - destruct (outputMap w !! jobId) as [file|] eqn:Hout.
    + case_decide as Hfile.
      * unfold download. by rewrite Hout, decide_True.
      * split; [|by apply download_retires].
        unfold download. by rewrite Hout, decide_False.
    + unfold download. by rewrite Hout.
  - destruct (outputMap w !! jobId) as [file|] eqn:Hout.
    + destruct (decide (file = "")) as [->|Hfile].
      * unfold download at 2. rewrite Hout, decide_True by done. simpl.
        unfold download. by rewrite Hout, decide_True.
      * destruct (download_retires jobId file w Hout Hfile) as (Ho & _).
        unfold download at 1. by rewrite Ho.
    + unfold download at 2. rewrite Hout. simpl. unfold download. by rewrite Hout.
Qed.

(** Every path that [tempFile] makes is non-empty, so the path that
    [dubVideo] records as output is. *)
Lemma tempFile_nonempty (env : Env) ext w : (tempFile env ext w).1 <> Ok "".
Proof.
  unfold tempFile. simpl. intros [= H].
  destruct (tmpdir env); discriminate.
Qed.

Lemma progress_tick_absent id w :
  progressMap w !! id = None -> progress_tick id w = (zero_event, false).
Proof. intros H. unfold progress_tick. by rewrite H. Qed.

(** C9.  While a job id is absent from the progress registry, every firing
    of the timer writes the event for progress 0, the same as for a job
    just created, and leaves the stream open. *)
Theorem progress_stream_unknown_id (id : string) (ws : list World) :
  Forall (fun w => progressMap w !! id = None) ws ->
  progress_stream id ws = (replicate (length ws) zero_event, false) /\
  forall w w0, w ∈ ws -> progressMap w0 !! id = Some 0 ->
    progress_tick id w = progress_tick id w0.
Proof.
  intros Hall. split.
  - induction Hall as [|w ws Hw _ IH]; [done|].
    cbn [progress_stream length replicate].
    rewrite (progress_tick_absent _ _ Hw), IH. done.
  - intros w w0 Hin H0. rewrite Forall_forall in Hall.
    rewrite (progress_tick_absent _ _ (Hall _ Hin)).
    unfold progress_tick. by rewrite H0.
Qed.

Lemma progress_stream_unknown_id_witness :
  progress_stream "nobody" [empty_world; empty_world; empty_world]
  = (replicate 3 zero_event, false) /\
  forall w w0, w ∈ [empty_world; empty_world; empty_world] ->
    progressMap w0 !! "nobody" = Some 0 ->
    progress_tick "nobody" w = progress_tick "nobody" w0.
Proof.
  apply (progress_stream_unknown_id "nobody" [empty_world; empty_world; empty_world]).
  repeat constructor.
Defined.

(** ** Progress *)





(** ** The stages of [dubVideo] *)

Section Stages.
Context (env : Env).

Lemma extractAudio_inv input output w r w' :
  extractAudio env input output w = (r, w') ->
  exists d, trace w' = trace w ++ d /\ forall id, progress_writes id d = [].
Proof.
  unfold extractAudio, mbind, M_bind, mret, M_ret. intros H.
  destruct (execFileAsync _ _ _) as [r0 w0] eqn:E.
  apply execFileAsync_inv in E. eexists. destruct r0; simplify_eq; eauto.
Qed.

Lemma transcribe_inv file w r w' :
  transcribe env file w = (r, w') ->
  trace w' = trace w ++ [TranscriptionsCreate file].
Proof. unfold transcribe. destruct (whisper env _ _); intros [= <- <-]; done. Qed.

Lemma outputMap_set_inv id path w r w' :
  outputMap_set id path w = (r, w') ->
  r = Ok tt /\ progressMap w' = progressMap w /\
  trace w' = trace w ++ [OutputSet id path].
Proof. unfold outputMap_set. intros [= <- <-]. auto. Qed.

Lemma progressMap_set_lookup id v w :
  progressMap (progressMap_set id v w).2 !! id = Some v.
Proof. unfold progressMap_set. simpl. apply lookup_insert_eq. Qed.

Lemma concatAudio_inv paths output w r w' :
  concatAudio env paths output w = (r, w') ->
  exists d, trace w' = trace w ++ d /\ forall id, progress_writes id d = [].
Proof.
  unfold concatAudio, mbind, M_bind. intros H.
  inv_run H; inv_steps env; chain_traces;
    (eexists; split; [reflexivity|done]).
Qed.

Lemma LoopOk_paths id n i segs st st' ds :
  LoopOk id n i segs st st' ds ->
  Forall (fun p => p <> "") (timeline st) ->
  Forall (fun p => p <> "") (timeline st').
Proof.
  induction 1 as [i st|i seg rest st st1 st' d ds Hit Hrest IH]; [done|].
  intros Hst. apply IH. rewrite (it_timeline _ _ _ _ _ _ _ Hit).
  apply Forall_app. split; [done|]. apply (it_paths _ _ _ _ _ _ _ Hit).
Qed.

Ltac inv_stages :=
  repeat match goal with
         | H : extractAudio env _ _ _ = _ |- _ =>
             apply extractAudio_inv in H as (? & H & ?)
         | H : concatAudio env _ _ _ = _ |- _ =>
             apply concatAudio_inv in H as (? & H & ?)
         | H : transcribe env _ _ = _ |- _ => apply transcribe_inv in H
         | H : outputMap_set _ _ _ = _ |- _ => apply outputMap_set_inv in H as (? & _ & H)
         | H : segment_loop env _ _ _ _ _ _ _ = (Ok _, _) |- _ =>
             let Hl := fresh "Hloop" in
             apply segment_loop_ok in H as (? & H & Hl);
             apply LoopOk_progress in Hl
         | H : segment_loop env _ _ _ _ _ _ _ = (Throw _, _) |- _ =>
             apply segment_loop_throw in H as (? & ? & H & ? & ?)
         end.

(** A successful run wrote 5, 15, the value of each segment, 75, 90 and
    100, and returns non-empty paths. *)
Lemma dubVideo_stages_ok path id w ea da tl w' :
  dubVideo_stages env path id w = (Ok (ea, da, tl), w') ->
  exists d n,
    trace w' = trace w ++ d /\
    progress_writes id d
    = [5; 15] ++ map (fun i => segment_progress i n) (seq 0 n) ++ [75; 90; 100] /\
    Forall (fun p => p <> "") (ea :: da :: tl) /\
    progressMap w' !! id = Some 100.
Proof.
  unfold dubVideo_stages, mbind, M_bind, mret, M_ret. intros H.
  inv_run H.
  assert (progressMap w' !! id = Some 100) as Hp.
  { match goal with
    | Ho : outputMap_set _ _ _ = _ |- _ => apply outputMap_set_inv in Ho as (_ & -> & _)
    end.
    match goal with
    | Hs : progressMap_set id 100 ?w0 = _ |- _ =>
        pose proof (progressMap_set_lookup id 100 w0) as Hl; by rewrite Hs in Hl
    end. }
  match goal with
  | Hs : segment_loop env _ _ _ _ _ _ _ = (Ok ?st, _) |- _ =>
      assert (Forall (fun p => p <> "") (timeline st)) as Htl
  end.
  { match goal with
    | Hs : segment_loop env _ _ _ _ _ _ _ = _ |- _ =>
        apply segment_loop_ok in Hs as (? & _ & Hl)
    end.
    apply (LoopOk_paths _ _ _ _ _ _ _ Hl). constructor. }
  inv_stages. inv_steps env. chain_traces.
  eexists _, _. split; [reflexivity|].
  split; [|split; [by repeat constructor|done]].
  views. use_quiet. rewrite Hloop. simpl. by rewrite <- ?app_assoc.
Qed.


End Stages.

(** ** The whole job *)

Section Job.
Context (env : Env).

(** The clean-up removes every non-empty path it is given, creates
    nothing, and touches neither registry. *)
Lemma forEach_safeUnlink_inv paths : forall w r w',
  forEach_safeUnlink paths w = (r, w') ->
  r = Ok tt /\ progressMap w' = progressMap w /\ outputMap w' = outputMap w /\
  (exists d, trace w' = trace w ++ d /\ forall id, progress_writes id d = []) /\
  (forall p, files w !! p = None -> files w' !! p = None) /\
  (forall p, p ∈ paths -> p <> "" -> files w' !! p = None).
Proof.
  induction paths as [|f paths IH]; intros w r w' H.
  - injection H as <- <-. repeat split; auto.
    + exists []. by rewrite app_nil_r.
    + intros p Hp. by apply elem_of_nil in Hp.
  - simpl in H. unfold mbind, M_bind in H.
    assert (exists d, safeUnlink f w
              = (Ok tt, mkWorld (if decide (f = "") then files w else delete f (files w))
                          (progressMap w) (outputMap w) (trace w ++ d))
              /\ forall id, progress_writes id d = []) as (d & Hrun & Hd).
    { unfold safeUnlink. destruct w as [fs pm om tr]; simpl.
      case_decide as Hex.
      - exists [Unlink f]. destruct Hex as [Hne _]. by rewrite decide_False.
      - exists []. rewrite app_nil_r. split; [|done]. do 2 f_equal.
        case_decide; [done|]. symmetry. apply delete_id.
        destruct (fs !! f) eqn:E; [|done]. exfalso. apply Hex. eauto. }
    rewrite Hrun in H. apply IH in H as (-> & Hpm & Hom & (d' & Htr & Hd') & Hmono & Hgone).
    simpl in *. repeat split; auto.
    + exists (d ++ d'). split; [by rewrite Htr, app_assoc|].
      intros id. by rewrite progress_writes_app, Hd, Hd'.
    + intros p Hp. apply Hmono. case_decide; [done|].
      rewrite lookup_delete. by case_decide.
    + intros p Hin Hne. apply elem_of_cons in Hin as [->|Hin]; [|by apply Hgone].
      apply Hmono. rewrite decide_False by done. apply lookup_delete_eq.
Qed.

Lemma dubVideo_unfold path id w :
  dubVideo env path id w =
  match dubVideo_stages env path id w with
  | (Ok (ea, da, tl), w1) => forEach_safeUnlink (ea :: da :: tl) w1
  | (Throw e, w1) => (Throw e, w1)
  end.
Proof.
  unfold dubVideo, mbind, M_bind.
  destruct (dubVideo_stages env path id w) as [[[[ea da] tl]|e] w1]; done.
Qed.

(** The world in which [startJob] leaves a job, by the outcome of the
    stages. *)
Lemma startJob_unfold path id w :
  startJob env path id w =
  match dubVideo_stages env path id (progressMap_set id 0 w).2 with
  | (Ok (ea, da, tl), w1) => (forEach_safeUnlink (ea :: da :: tl) w1).2
  | (Throw e, w1) =>
      (progressMap_set id (-1) (log (ConsoleError "" e) w1)).2
  end.
Proof.
  unfold startJob, mbind, M_bind. cbn [progressMap_set fst snd].
  change (dubVideo env path id ?x) with (dubVideo env path id x).
  rewrite dubVideo_unfold.
  destruct (dubVideo_stages env path id _) as [[[[ea da] tl]|e] w1]; [|done].
  destruct (forEach_safeUnlink _ w1) as [r w2] eqn:Hc.
  apply forEach_safeUnlink_inv in Hc as (-> & _). done.
Qed.

End Job.






(** ** Clean-up *)

(** C4, as the code has it.  When the stages of [dubVideo] succeed, the job
    ends at progress 100, the extracted audio, the dubbed audio and every
    timeline entry are gone, and the clean-up created no file.  When a
    stage throws, nothing is cleaned up: the job ends at progress -1 with
    the files exactly as the failing stage left them, after a line on the
    console and the write of -1. *)
Theorem cleanup_on_success_only (env : Env) (path jobId : string) (w : World) :
  let w' := startJob env path jobId w in
  match dubVideo_stages env path jobId (progressMap_set jobId 0 w).2 with
  | (Ok (extractedAudio, dubbedAudio, timeline), w1) =>
      progressMap w' !! jobId = Some 100 /\
      (forall p, p ∈ extractedAudio :: dubbedAudio :: timeline -> files w' !! p = None) /\
      (forall p, files w1 !! p = None -> files w' !! p = None)
  | (Throw err, w1) =>
      progressMap w' !! jobId = Some (-1) /\
      files w' = files w1 /\
      events_since w1 w' = [ConsoleError "" err; ProgressSet jobId (-1)]
  end.
Proof.
  intros w'. subst w'. rewrite startJob_unfold.
  destruct (dubVideo_stages env path jobId _) as [[[[ea da] tl]|e] w1] eqn:Hst.
  - apply dubVideo_stages_ok in Hst as (d & n & _ & _ & Hne & Hp).
    destruct (forEach_safeUnlink _ w1) as [r w2] eqn:Hc.
    apply forEach_safeUnlink_inv in Hc as (-> & Hpm & _ & _ & Hmono & Hgone).
    cbn [fst snd]. split; [by rewrite Hpm|]. split; [|done].
    intros p Hp'. apply Hgone; [done|].
    rewrite Forall_forall in Hne. by apply Hne.
  - cbn [progressMap_set snd set_progressMap log progressMap files trace].
    split; [apply lookup_insert_eq|]. split; [done|].
    apply events_since_app. unfold log, set_progressMap. cbn [trace].
    by rewrite <- app_assoc.
Qed.

(** C4 as stated fails on the failure path: in a world where ffmpeg runs
    and the transcription is rejected, the job ends at progress -1, no file
    was ever unlinked, and the extracted audio is still there. *)
Lemma failed_job_keeps_extracted_audio :
  let w' := startJob (demo_env None) "/uploads/video.mp4" "job" empty_world in
  progressMap w' !! "job" = Some (-1) /\
  ExecFile ["-i"; "/uploads/video.mp4"; "-map"; "a"; "-q:a"; "0"; "/tmp/1-0.5.wav"]
    ∈ trace w' /\
  Forall (fun e => forall p, e <> Unlink p) (trace w') /\
  files w' !! "/tmp/1-0.5.wav" = Some "RIFF".
Proof.
  assert (startJob (demo_env None) "/uploads/video.mp4" "job" empty_world
          = mkWorld {["/tmp/1-0.5.wav" := "RIFF"]} {["job" := -1]} ∅
              [ProgressSet "job" 0; TempName "/tmp/1-0.5.wav"; TempName "/tmp/2-0.5.wav";
               TempName "/tmp/3-0.5.mp4"; ProgressSet "job" 5;
               ExecFile ["-i"; "/uploads/video.mp4"; "-map"; "a"; "-q:a"; "0";
                         "/tmp/1-0.5.wav"];
               ProgressSet "job" 15; TranscriptionsCreate "/tmp/1-0.5.wav";
               ConsoleError "" (ApiError "audio.transcriptions");
               ProgressSet "job" (-1)]) as ->
    by (vm_compute; reflexivity).
  cbn [progressMap files trace]. split; [done|]. split; [set_solver|].
  split; [|done]. repeat constructor; discriminate.
Qed.

(** On the demo segments the whole job succeeds and leaves one file. *)
Example successful_job_leaves_output :
  let w' := startJob (demo_env (Some demo_segments)) "/uploads/video.mp4" "job"
              empty_world in
  map_to_list (files w') = [("/tmp/3-0.5.mp4", "RIFF")] /\
  outputMap w' !! "job" = Some "/tmp/3-0.5.mp4" /\
  progress_writes "job" (trace w') = [0; 5; 15; 15; 33; 51; 75; 90; 100].
Proof. vm_compute. done. Qed.

(** ... and that file can be downloaded once. *)
Example successful_job_download :
  let w' := startJob (demo_env (Some demo_segments)) "/uploads/video.mp4" "job"
              empty_world in
  (download "job" w').1 = Download "/tmp/3-0.5.mp4" "dubbed.mp4" (Some "RIFF") /\
  map_to_list (files (download "job" w').2) = [] /\
  (download "job" (download "job" w').2).1 = NotFound /\
  progress_tick "job" w' = ("data: 100

", true) /\
  progress_tick "job" (download "job" w').2 = (zero_event, false).
Proof. vm_compute. done. Qed.

(** ** What the pipeline leaves alone *)

Section Frame.
Context {X : Type} (f : World -> X) (jobId : string).
Hypothesis f_log : forall e w, f (log e w) = f w.
Hypothesis f_files : forall fs w, f (set_files fs w) = f w.
Hypothesis f_progress : forall v w,
  f (set_progressMap (<[jobId := v]> (progressMap w)) w) = f w.

Lemma keeps_ret {A} (a : A) : keeps f (mret a).
Proof. intros w r w' [= <- <-]. done. Qed.

Lemma keeps_throw {A} e : keeps f (@throw A e).
Proof. intros w r w' [= <- <-]. done. Qed.

Lemma keeps_bind {A B} (m : M A) (k : A -> M B) :
  keeps f m -> (forall a, keeps f (k a)) -> keeps f (m ≫= k).
Proof.
  intros Hm Hk w r w' H. unfold mbind, M_bind in H.
  destruct (m w) as [[a|e] w1] eqn:E.
  - rewrite (Hk a _ _ _ H). eapply Hm; eauto.
  - simplify_eq. eapply Hm; eauto.
Qed.

Lemma keeps_try_catch {A} (m : M A) (h : Exn -> M A) :
  keeps f m -> (forall e, keeps f (h e)) -> keeps f (try_catch m h).
Proof.
  intros Hm Hh w r w' H. unfold try_catch in H.
  destruct (m w) as [[a|e] w1] eqn:E.
  - simplify_eq. eapply Hm; eauto.
  - rewrite (Hh e _ _ _ H). eapply Hm; eauto.
Qed.

Lemma keeps_emit e : keeps f (emit e).
Proof. intros w r w' [= <- <-]. apply f_log. Qed.

Lemma keeps_progressMap_set v : keeps f (progressMap_set jobId v).
Proof. intros w r w' [= <- <-]. by rewrite f_log, f_progress. Qed.

Lemma keeps_writeFileSync path data : keeps f (writeFileSync path data).
Proof. intros w r w' [= <- <-]. by rewrite f_log, f_files. Qed.

Lemma keeps_safeUnlink file : keeps f (safeUnlink file).
Proof.
  intros w r w' H. unfold safeUnlink in H.
  case_decide; simplify_eq; [|done]. by rewrite f_log, f_files.
Qed.

Lemma keeps_forEach_safeUnlink paths : keeps f (forEach_safeUnlink paths).
Proof.
  induction paths as [|p paths IH]; [apply keeps_ret|].
  apply keeps_bind; [apply keeps_safeUnlink|done].
Qed.

Lemma keeps_rms_values l : keeps f (rms_values l).
Proof.
  induction l as [|v l IH]; simpl; [apply keeps_ret|].
  case_match; [|apply keeps_throw].
  apply keeps_bind; [done|]. intros; apply keeps_ret.
Qed.

Lemma keeps_gender_of_stderr s : keeps f (gender_of_stderr s).
Proof.
  unfold gender_of_stderr. case_match; [|apply keeps_ret].
  apply keeps_bind; [apply keeps_rms_values|]. intros; apply keeps_ret.
Qed.

Lemma keeps_assignVoice g i : keeps f (assignVoice g i).
Proof.
  unfold assignVoice. apply keeps_bind; [apply keeps_emit|].
  intros _. destruct g; apply keeps_ret.
Qed.

Context (env : Env).

Lemma keeps_tempFile ext : keeps f (tempFile env ext).
Proof. intros w r w' [= <- <-]. apply f_log. Qed.

Lemma keeps_execFileAsync args : keeps f (execFileAsync env args).
Proof.
  intros w r w' H. unfold execFileAsync in H.
  destruct (ffmpeg env _ _) as [[stderr data]|]; simplify_eq; [|apply f_log].
  case_decide; by rewrite ?f_files, f_log.
Qed.

Lemma keeps_translate t : keeps f (translate env t).
Proof.
  intros w r w' H. unfold translate in H.
  destruct (chat env _ _); simplify_eq; apply f_log.
Qed.

Lemma keeps_transcribe file : keeps f (transcribe env file).
Proof.
  intros w r w' H. unfold transcribe in H.
  destruct (whisper env _ _); simplify_eq; apply f_log.
Qed.

Lemma keeps_extractAudio i o : keeps f (extractAudio env i o).
Proof.
  apply keeps_bind; [apply keeps_execFileAsync|]. intros; apply keeps_ret.
Qed.

Lemma keeps_createSilence s o : keeps f (createSilence env s o).
Proof.
  unfold createSilence. case_decide; [apply keeps_ret|].
  apply keeps_bind; [apply keeps_execFileAsync|]. intros; apply keeps_ret.
Qed.

Lemma keeps_detectGender a : keeps f (detectGender env a).
Proof.
  apply keeps_try_catch.
  - apply keeps_bind; [apply keeps_execFileAsync|]. apply keeps_gender_of_stderr.
  - intros e. apply keeps_bind; [apply keeps_emit|]. intros; apply keeps_ret.
Qed.

Lemma keeps_speak t v o em : keeps f (speak env t v o em).
Proof.
  unfold speak. apply keeps_bind; [apply keeps_emit|]. intros _.
  apply keeps_bind; [|intros; apply keeps_writeFileSync].
  intros w r w' H. destruct (tts env _ _); simplify_eq; apply f_log.
Qed.

Lemma keeps_concatAudio paths o : keeps f (concatAudio env paths o).
Proof.
  unfold concatAudio. apply keeps_bind; [apply keeps_tempFile|]. intros l.
  apply keeps_bind; [apply keeps_writeFileSync|]. intros _.
  apply keeps_bind; [apply keeps_execFileAsync|]. intros _.
  apply keeps_safeUnlink.
Qed.

Lemma keeps_loop_body ea n i seg st : keeps f (loop_body env ea jobId n i seg st).
Proof.
  unfold loop_body.
  apply keeps_bind.
  { case_decide; [|apply keeps_ret].
    apply keeps_bind; [apply keeps_tempFile|]. intros p.
    apply keeps_bind; [apply keeps_createSilence|]. intros; apply keeps_ret. }
  intros tl. apply keeps_bind; [apply keeps_translate|]. intros tr.
  apply keeps_bind.
  { case_match; [apply keeps_ret|].
    apply keeps_bind; [apply keeps_tempFile|]. intros p.
    apply keeps_bind; [apply keeps_execFileAsync|]. intros _.
    apply keeps_bind; [apply keeps_detectGender|]. intros g.
    apply keeps_bind; [apply keeps_safeUnlink|]. intros; apply keeps_ret. }
  intros [g sg]. apply keeps_bind; [apply keeps_assignVoice|]. intros v.
  apply keeps_bind; [apply keeps_tempFile|]. intros p.
  apply keeps_bind; [apply keeps_speak|]. intros _.
  apply keeps_bind; [apply keeps_progressMap_set|]. intros; apply keeps_ret.
Qed.

Lemma keeps_segment_loop ea n segs : forall i st,
  keeps f (segment_loop env ea jobId n i segs st).
Proof.
  induction segs as [|seg rest IH]; intros i st; [apply keeps_ret|].
  apply keeps_bind; [apply keeps_loop_body|]. intros; apply IH.
Qed.

End Frame.

Section StagesFrame.
Context {X : Type} (f : World -> X) (jobId : string) (env : Env).
Hypothesis f_log : forall e w, f (log e w) = f w.
Hypothesis f_files : forall fs w, f (set_files fs w) = f w.
Hypothesis f_progress : forall v w,
  f (set_progressMap (<[jobId := v]> (progressMap w)) w) = f w.

(** The stages up to, and without, the publication of the output. *)
Lemma keeps_stages_throw path e w w' :
  dubVideo_stages env path jobId w = (Throw e, w') -> f w' = f w.
Proof.
  unfold dubVideo_stages, mbind, M_bind, mret, M_ret. intros H.
  inv_run H;
    repeat match goal with
           | H : ?m ?w0 = (_, ?w1) |- _ =>
               let K := fresh "K" in
               assert (f w1 = f w0) as K by
                 (revert H;
                  first [ apply keeps_tempFile | apply (keeps_progressMap_set f jobId)
                        | apply keeps_extractAudio | apply keeps_transcribe
                        | apply (keeps_segment_loop f jobId) | apply keeps_concatAudio
                        | apply keeps_execFileAsync ]; assumption);
               clear H
           end; congruence.
Qed.

Hypothesis f_output : forall p w,
  f (set_outputMap (<[jobId := p]> (outputMap w)) w) = f w.

Lemma keeps_outputMap_set p : keeps f (outputMap_set jobId p).
Proof. intros w r w' [= <- <-]. by rewrite f_log, f_output. Qed.

Lemma keeps_dubVideo_stages path : keeps f (dubVideo_stages env path jobId).
Proof.
  unfold dubVideo_stages.
  repeat first
    [ apply keeps_ret
    | apply keeps_bind;
        [ first [ apply keeps_tempFile | apply (keeps_progressMap_set f jobId)
                | apply keeps_extractAudio | apply keeps_transcribe
                | apply (keeps_segment_loop f jobId) | apply keeps_concatAudio
                | apply keeps_execFileAsync | apply keeps_outputMap_set ]; assumption
        | intros ] ].
Qed.

(** Whatever the outcome, [startJob] keeps [f]. *)
Lemma startJob_keeps path w : f (startJob env path jobId w) = f w.
Proof.
  rewrite startJob_unfold.
  assert (f (progressMap_set jobId 0 w).2 = f w) as H0.
  { eapply (keeps_progressMap_set f jobId); eauto. }
  destruct (dubVideo_stages env path jobId _) as [[[[ea da] tl]|e] w1] eqn:Hst.
  - apply keeps_dubVideo_stages in Hst.
    destruct (forEach_safeUnlink _ w1) as [r w2] eqn:Hc.
    apply (keeps_forEach_safeUnlink f) in Hc; [|done..]. simpl. congruence.
  - apply keeps_stages_throw in Hst.
    cbn [progressMap_set snd]. rewrite f_log, f_progress, f_log. congruence.
Qed.

End StagesFrame.

(** X1.  A job touches the registries at its own id only: the progress
    entry and the output entry of every other id are as before, whatever
    the outcome of the job. *)
Theorem startJob_isolated (env : Env) (path jobId other : string) (w : World) :
  other <> jobId ->
  progressMap (startJob env path jobId w) !! other = progressMap w !! other /\
  outputMap (startJob env path jobId w) !! other = outputMap w !! other.
Proof.
  intros Hne. split.
  - apply (startJob_keeps (fun w => progressMap w !! other)); try done.
    + intros v w0. simpl. by rewrite lookup_insert_ne.
  - apply (startJob_keeps (fun w => outputMap w !! other)); try done.
    + intros v w0. simpl. by rewrite lookup_insert_ne.
Qed.

(** ** Publication of the output *)

Section Publish.
Context (env : Env).

Lemma tempFile_path ext w p w' :
  tempFile env ext w = (Ok p, w') -> p <> "" /\ p <> "-".
Proof.
  unfold tempFile. intros [= <- <-]. split.
  - destruct (tmpdir env); discriminate.
  - destruct (tmpdir env) as [|c t]; [discriminate|].
    rewrite append_cons. intros [= _ H]. destruct t; discriminate H.
Qed.

Lemma execFileAsync_writes args w stderr w' :
  execFileAsync env args w = (Ok stderr, w') ->
  List.last args "-" <> "-" ->
  is_Some (files w' !! List.last args "-").
Proof.
  unfold execFileAsync. destruct (ffmpeg env _ _) as [[s data]|]; [|done].
  intros [= <- <-] Hne. rewrite decide_False by done. simpl.
  rewrite lookup_insert_eq. eauto.
Qed.

(** The stages, when they succeed, record one non-empty path for the job,
    and the remix has written a file there. *)
Lemma dubVideo_stages_output path id w ea da tl w' :
  dubVideo_stages env path id w = (Ok (ea, da, tl), w') ->
  exists out, out <> "" /\
    outputMap w' = <[id := out]> (outputMap w) /\
    is_Some (files w' !! out).
Proof.
  unfold dubVideo_stages, mbind, M_bind, mret, M_ret. intros H.
  inv_run H.
  match goal with
  | Ho : outputMap_set id ?out _ = _ |- _ => exists out
  end.
  match goal with
  | Ht : tempFile env ".mp4" ?wa = (_, ?wb) |- _ =>
      assert (outputMap wb = outputMap wa)
        by (revert Ht; apply keeps_tempFile; done);
      apply tempFile_path in Ht as [? ?]
  end.
  split; [done|].
  match goal with
  | Hx : execFileAsync env (_ :: _ :: _ :: _ :: "-filter_complex" :: _) ?wa = (_, ?wb)
    |- _ =>
      assert (outputMap wb = outputMap wa)
        by (revert Hx; apply keeps_execFileAsync; done);
      apply execFileAsync_writes in Hx; [|done]; cbn [List.last] in Hx
  end.
  repeat match goal with
         | Hs : progressMap_set id 100 _ = _ |- _ =>
             unfold progressMap_set in Hs; simplify_eq
         | Hs : outputMap_set id _ _ = _ |- _ =>
             unfold outputMap_set in Hs; simplify_eq
         end.
  cbn [outputMap files log set_outputMap set_progressMap]. split; [|done].
  f_equal.
  repeat match goal with
         | H : ?m ?w0 = (_, ?w1) |- _ =>
             let K := fresh "K" in
             assert (outputMap w1 = outputMap w0) as K by
               (revert H;
                first [ apply keeps_tempFile | apply (keeps_progressMap_set outputMap id)
                      | apply keeps_extractAudio | apply keeps_transcribe
                      | apply (keeps_segment_loop outputMap id) | apply keeps_concatAudio
                      | apply keeps_execFileAsync ]; done);
             clear H
         end.
  congruence.
Qed.

Lemma forEach_safeUnlink_frame paths : forall w p,
  p ∉ paths -> files (forEach_safeUnlink paths w).2 !! p = files w !! p.
Proof.
  induction paths as [|q paths IH]; intros w p Hp; [done|].
  apply not_elem_of_cons in Hp as [Hne Hp].
  simpl. unfold mbind, M_bind.
  destruct (safeUnlink q w) as [[[]|e] w1] eqn:Hu.
  - rewrite IH by done. unfold safeUnlink in Hu.
    case_decide; simplify_eq; [|done]. simpl. by rewrite lookup_delete_ne.
  - unfold safeUnlink in Hu. case_decide; simplify_eq.
Qed.

End Publish.

(** X2.  The output of a job is published only when every stage has
    succeeded: then the registry of outputs gains exactly the entry of the
    job, a non-empty path, and the file is there unless its path is that of
    an intermediate file; when a stage throws the registry of outputs is
    as it was before the job. *)
Theorem output_published_on_success_only (env : Env) (path jobId : string) (w : World) :
  let w' := startJob env path jobId w in
  match dubVideo_stages env path jobId (progressMap_set jobId 0 w).2 with
  | (Ok (extractedAudio, dubbedAudio, timeline), _) =>
      exists outputVideo,
        outputVideo <> "" /\
        outputMap w' = <[jobId := outputVideo]> (outputMap w) /\
        (outputVideo ∉ extractedAudio :: dubbedAudio :: timeline ->
         is_Some (files w' !! outputVideo))
  | (Throw _, _) => outputMap w' = outputMap w
  end.
Proof.
  intros w'. subst w'. rewrite startJob_unfold.
  destruct (dubVideo_stages env path jobId _) as [[[[ea da] tl]|e] w1] eqn:Hst.
  - apply dubVideo_stages_output in Hst as (out & Hne & Hom & Hfile).
    exists out. split; [done|].
    destruct (forEach_safeUnlink _ w1) as [r w2] eqn:Hc.
    pose proof (forEach_safeUnlink_frame (ea :: da :: tl) w1 out) as Hframe.
    rewrite Hc in Hframe.
    apply forEach_safeUnlink_inv in Hc as (_ & _ & Hom' & _).
    cbn [snd] in *. split; [by rewrite Hom', Hom|].
    intros Hnin. by rewrite Hframe.
  - pose proof (keeps_stages_throw outputMap jobId env) as K.
    cbn [progressMap_set snd set_progressMap log outputMap].
    by erewrite K; [| | | |exact Hst].
Qed.

(** ** Jobs, streams and downloads together *)

Lemma startJob_isolated_witness :
  progressMap (startJob (demo_env (Some demo_segments)) "/uploads/video.mp4" "job"
                 busy_world) !! "other" = progressMap busy_world !! "other" /\
  outputMap (startJob (demo_env (Some demo_segments)) "/uploads/video.mp4" "job"
               busy_world) !! "other" = outputMap busy_world !! "other".
Proof.
  apply (startJob_isolated (demo_env (Some demo_segments)) "/uploads/video.mp4" "job"
           "other" busy_world).
  discriminate.
Defined.

(** The progress entry of a job once it has settled. *)
Lemma startJob_progress (env : Env) (path jobId : string) (w : World) :
  progressMap (startJob env path jobId w) !! jobId
  = match (dubVideo_stages env path jobId (progressMap_set jobId 0 w).2).1 with
    | Ok _ => Some 100
    | Throw _ => Some (-1)
    end.
Proof.
  rewrite startJob_unfold.
  destruct (dubVideo_stages env path jobId _) as [[[[ea da] tl]|e] w1] eqn:Hst.
  - apply dubVideo_stages_ok in Hst as (_ & _ & _ & _ & _ & Hp).
    destruct (forEach_safeUnlink _ w1) as [r w2] eqn:Hc.
    apply forEach_safeUnlink_inv in Hc as (_ & Hpm & _). simpl. by rewrite Hpm.
  - cbn [progressMap_set snd set_progressMap log progressMap fst].
    apply lookup_insert_eq.
Qed.

(** X3.  Once a job has settled, the next firing of the progress timer for
    its id closes the stream, after writing 100 if the job succeeded and -1
    if it failed, whatever the later states of the world. *)
Theorem stream_closes_when_job_settles (env : Env) (path jobId : string)
    (w : World) (later : list World) :
  progress_stream jobId (startJob env path jobId w :: later)
  = match (dubVideo_stages env path jobId (progressMap_set jobId 0 w).2).1 with
    | Ok _ => ([progress_event 100], true)
    | Throw _ => ([progress_event (-1)], true)
    end.
Proof.
  cbn [progress_stream]. unfold progress_tick. rewrite startJob_progress.
  destruct (dubVideo_stages env path jobId _).1; done.
Qed.

Lemma progress_tick_reading id w :
  progress_tick id w = (progress_event (reading id w), bool_decide (terminal id w)).
Proof.
  unfold progress_tick, progress_event, reading, terminal. f_equal.
  destruct (decide (100 <= default 0 (progressMap w !! id))) as [H1|H1];
    destruct (decide (default 0 (progressMap w !! id) < 0)) as [H2|H2];
    rewrite ?(bool_decide_eq_true_2 _ H1), ?(bool_decide_eq_false_2 _ H1),
      ?(bool_decide_eq_true_2 _ H2), ?(bool_decide_eq_false_2 _ H2); simpl;
    symmetry; (apply bool_decide_eq_true_2 || apply bool_decide_eq_false_2); tauto.
Qed.

(** X4.  A progress stream writes the reading of every firing up to and
    including the first terminal one (at least 100, or negative) and closes
    there; if no reading is terminal it writes them all and stays open. *)
Theorem progress_stream_stops_at_first_terminal (id : string) (ws : list World) :
  progress_stream id ws
  = match list_find (terminal id) ws with
    | Some (k, _) => (map (fun w => progress_event (reading id w)) (take (S k) ws), true)
    | None => (map (fun w => progress_event (reading id w)) ws, false)
    end.
Proof.
  induction ws as [|w ws IH]; [done|].
  cbn [progress_stream list_find]. rewrite progress_tick_reading.
  unfold bool_decide. change (decide (terminal id w)) with (terminal_dec id w).
  destruct (terminal_dec id w) as [Ht|Ht]; [done|].
  rewrite IH. destruct (list_find (terminal id) ws) as [[k w0]|]; done.
Qed.

Example progress_stream_demo :
  progress_stream "other"
    [busy_world; empty_world;
     startJob failing_env "/uploads/video.mp4" "other" busy_world; busy_world]
  = ([progress_event 40; progress_event 0; progress_event (-1)], true).
Proof. vm_compute. reflexivity. Qed.

Lemma download_frame jobId w :
  (forall other, other <> jobId ->
     progressMap (download jobId w).2 !! other = progressMap w !! other /\
     outputMap (download jobId w).2 !! other = outputMap w !! other) /\
  (forall p, outputMap w !! jobId <> Some p ->
     files (download jobId w).2 !! p = files w !! p).
Proof.
  unfold download. destruct (outputMap w !! jobId) as [file|] eqn:Hout; [|done].
  case_decide as Hfile; [done|]. cbn [snd].
  assert (progressMap (safeUnlink file w).2 = progressMap w /\
          outputMap (safeUnlink file w).2 = outputMap w /\
          forall p, p <> file -> files (safeUnlink file w).2 !! p = files w !! p)
    as (Hp & Ho & Hf).
  { unfold safeUnlink. case_decide; simpl; [|done].
    repeat split. intros p Hp. by rewrite lookup_delete_ne. }
  split.
  - intros other Hne. simpl. rewrite !lookup_delete_ne by done. by rewrite Hp, Ho.
  - intros p Hp'. simpl. apply Hf. congruence.
Qed.

(** X5.  A download touches nothing but its own job: the progress and
    output entries of every other id stay, and no file is removed other
    than the one recorded as the output of the job. *)
Theorem download_isolated (jobId other : string) (w : World) :
  other <> jobId ->
  progressMap (download jobId w).2 !! other = progressMap w !! other /\
  outputMap (download jobId w).2 !! other = outputMap w !! other /\
  forall p, outputMap w !! jobId <> Some p ->
    files (download jobId w).2 !! p = files w !! p.
Proof.
  intros Hne. destruct (download_frame jobId w) as [H1 H2].
  destruct (H1 other Hne). auto.
Qed.

Lemma download_isolated_witness :
  progressMap (download "old" busy_world).2 !! "other"
  = progressMap busy_world !! "other" /\
  outputMap (download "old" busy_world).2 !! "other"
  = outputMap busy_world !! "other" /\
  forall p, outputMap busy_world !! "old" <> Some p ->
    files (download "old" busy_world).2 !! p = files busy_world !! p.
Proof.
  apply (download_isolated "old" "other" busy_world). discriminate.
Defined.

Lemma startJob_output_throw (env : Env) (path jobId : string) (w : World) e w1 :
  dubVideo_stages env path jobId (progressMap_set jobId 0 w).2 = (Throw e, w1) ->
  outputMap (startJob env path jobId w) = outputMap w.
Proof.
  intros Hst. rewrite startJob_unfold, Hst.
  apply (keeps_stages_throw outputMap jobId env) in Hst; try done.
Qed.

(** X6.  The two registries stay consistent: if every recorded output
    belongs to a job at progress 100, this still holds after a job started
    under an id without a recorded output, and after any download. *)
Theorem registries_stay_consistent (env : Env) (path jobId : string) (w : World) :
  registries_consistent w ->
  outputMap w !! jobId = None ->
  registries_consistent (startJob env path jobId w) /\
  forall id, registries_consistent (download id w).2.
Proof.
  intros Hc Hfresh. split.
  - intros id p Hout. destruct (decide (id = jobId)) as [->|Hne].
    + rewrite startJob_progress.
      destruct (dubVideo_stages env path jobId _) as [[[[ea da] tl]|e] w1] eqn:Hst;
        [done|].
      rewrite (startJob_output_throw _ _ _ _ _ _ Hst) in Hout. congruence.
    + assert (progressMap (startJob env path jobId w) !! id = progressMap w !! id) as ->.
      { apply (startJob_keeps (fun w => progressMap w !! id) jobId env); try done.
        intros v w0. simpl. by rewrite lookup_insert_ne. }
      apply Hc with p. rewrite <- Hout. symmetry.
      apply (startJob_keeps (fun w => outputMap w !! id) jobId env); try done.
      intros v w0. simpl. by rewrite lookup_insert_ne.
  - intros id id' p Hout. destruct (decide (id' = id)) as [->|Hne].
    + unfold download in Hout |- *.
      destruct (outputMap w !! id) as [file|] eqn:Ho; [|by apply Hc with p].
      case_decide as Hf; [by apply Hc with p|].
      simpl in Hout. by rewrite lookup_delete_eq in Hout.
    + destruct (download_frame id w) as [H1 _]. destruct (H1 id' Hne) as [Hp Ho].
      rewrite Hp. apply Hc with p. by rewrite <- Ho.
Qed.

Lemma registries_stay_consistent_witness :
  registries_consistent
    (startJob (demo_env (Some demo_segments)) "/uploads/video.mp4" "job" busy_world) /\
  forall id, registries_consistent (download id busy_world).2.
Proof.
  apply (registries_stay_consistent (demo_env (Some demo_segments))
           "/uploads/video.mp4" "job" busy_world); [|done].
  intros id p. unfold busy_world. cbn [outputMap progressMap].
  intros H. apply lookup_singleton_Some in H as [<- _]. done.
Defined.

Lemma startJob_output_ok (env : Env) (path jobId : string) (w : World) r w1 :
  dubVideo_stages env path jobId (progressMap_set jobId 0 w).2 = (Ok r, w1) ->
  exists out, out <> "" /\ outputMap (startJob env path jobId w) !! jobId = Some out.
Proof.
  intros Hst. rewrite startJob_unfold, Hst. destruct r as [[ea da] tl].
  apply dubVideo_stages_output in Hst as (out & Hne & Hom & _).
  exists out. split; [done|].
  destruct (forEach_safeUnlink _ w1) as [r w2] eqn:Hc.
  apply forEach_safeUnlink_inv in Hc as (_ & _ & Hom' & _).
  cbn [snd]. rewrite Hom', Hom. apply lookup_insert_eq.
Qed.

(** X7.  A job that succeeded can be downloaded exactly once: the first
    download answers with the recorded file under the name [dubbed.mp4] and
    retires the progress entry, the second answers not-found.  A job that
    failed, started under an id without a recorded output, cannot be
    downloaded at all. *)
Theorem job_then_download (env : Env) (path jobId : string) (w : World) :
  let w' := startJob env path jobId w in
  match (dubVideo_stages env path jobId (progressMap_set jobId 0 w).2).1 with
  | Ok _ =>
      exists out,
        (download jobId w').1 = Download out "dubbed.mp4" (files w' !! out) /\
        progressMap (download jobId w').2 !! jobId = None /\
        (download jobId (download jobId w').2).1 = NotFound
  | Throw _ =>
      outputMap w !! jobId = None -> (download jobId w').1 = NotFound
  end.
Proof.
  intros w'. subst w'.
  destruct (dubVideo_stages env path jobId _) as [[r|e] w1] eqn:Hst; cbn [fst].
  - destruct (startJob_output_ok _ _ _ _ _ _ Hst) as (out & Hne & Hout).
    exists out.
    destruct (download_retires jobId out _ Hout Hne) as (Ho & Hp & _).
    split; [|split; [done|]].
    + unfold download. by rewrite Hout, decide_False.
    + unfold download at 1. by rewrite Ho.
  - intros Hfresh. unfold download.
    by rewrite (startJob_output_throw _ _ _ _ _ _ Hst), Hfresh.
Qed.

(** ** The helpers on their own *)

(** X8.  [assignVoice] always answers with a voice of the pool of the
    gender it is given, whatever the index (it never reads past the end of
    a pool), never with a voice of the other pool, and with the same voice
    again four indices later. *)
Theorem assignVoice_stays_in_pool (g : Gender) (index : nat) (w : World) :
  exists v,
    (assignVoice g index w).1 = Ok v /\
    v ∈ pool g /\
    (forall g', g' <> g -> v ∉ pool g') /\
    (assignVoice g (index + 4) w).1 = Ok v.
Proof.
  exists (pool g !!! (index `mod` 4)%nat).
  assert ((index + 4) `mod` 4 = index `mod` 4)%nat as Hper.
  { replace (index + 4)%nat with (index + 1 * 4)%nat by lia.
    apply Nat.Div0.mod_add. }
  assert (index `mod` 4 < 4)%nat as Hlt by (apply Nat.mod_upper_bound; lia).
  split; [by destruct g|]. split; [|split].
  - destruct g, (index `mod` 4)%nat as [|[|[|[|?]]]]; try lia;
      vm_compute; set_solver.
  - intros g' Hne.
    destruct g, g', (index `mod` 4)%nat as [|[|[|[|?]]]]; try lia; try done;
      vm_compute; set_solver.
  - unfold assignVoice, emit, mbind, M_bind, mret, M_ret.
    destruct g; simpl length; by rewrite Hper.
Qed.


(** ** Segments without speaker labels *)

Lemma speakerKey_unlabelled seg i :
  unlabelled seg -> speakerKey seg i = "segment_" +:+ pretty i.
Proof. unfold speakerKey. intros [->| ->]; [done|]. by rewrite decide_True. Qed.

Lemma fallback_key_inj (i j : nat) :
  "segment_" +:+ pretty i = "segment_" +:+ pretty j -> i = j.
Proof.
  rewrite !append_cons. intros [= H]. change (pretty i = pretty j) in H.
  by apply (inj pretty) in H.
Qed.

Lemma LoopOk_unlabelled id n i segs st st' ds :
  LoopOk id n i segs st st' ds ->
  Forall unlabelled segs ->
  (forall j, (i <= j)%nat ->
     speakerGender st !! ("segment_" +:+ pretty j) = None /\
     rotation_index st ("segment_" +:+ pretty j) = 0%nat) ->
  voices_of (concat ds) = map first_voice (genders_logged (concat ds)) /\
  length (detections (concat ds)) = length segs.
Proof.
  induction 1 as [i st|i seg rest st st1 st' d ds Hit Hrest IH]; [done|].
  intros Hun Hfresh. apply Forall_cons in Hun as [Hseg Hun].
  pose proof (speakerKey_unlabelled seg i Hseg) as Hkey.
  destruct (Hfresh i) as [Hnone Hzero]; [lia|].
  rewrite <- Hkey in Hnone, Hzero.
  destruct (it_speak _ _ _ _ _ _ _ Hit) as (t & o & g & Hcall & Hlog & _).
  destruct (it_fresh _ _ _ _ _ _ _ Hit Hnone) as (g' & clip & Hsg & Hdet & _).
  destruct IH as [IHv IHd]; [done| |].
  { intros j Hj. destruct (Hfresh j) as [Hn Hz]; [lia|].
    assert ("segment_" +:+ pretty j <> speakerKey seg i) as Hne.
    { rewrite Hkey. intros Heq. apply fallback_key_inj in Heq. lia. }
    split.
    - rewrite Hsg. by rewrite lookup_insert_ne.
    - by rewrite (it_index_other _ _ _ _ _ _ _ Hit _ Hne). }
  cbn [concat]. unfold voices_of in *.
  rewrite speak_calls_app, genders_logged_app, detections_app, Hcall, Hlog, Hdet.
  rewrite !map_app, IHv, length_app, IHd. split; [|done].
  simpl. f_equal. rewrite Hzero. by destruct g.
Qed.

(** X10.  When no segment carries a speaker label (the field is absent or
    empty, as in the transcription the code requests), every segment has a
    key of its own: gender detection runs once for every segment, the
    rotation never advances, and each segment is voiced with the first
    voice of the pool of the gender detected for it. *)
Theorem unlabelled_segments_first_voice (env : Env) (extractedAudio jobId : string)
    (n : nat) (segs : list Segment) (w w' : World) (st' : LoopState) :
  Forall unlabelled segs ->
  segment_loop env extractedAudio jobId n 0 segs initial_state w = (Ok st', w') ->
  voices_of (events_since w w') = map first_voice (genders_logged (events_since w w')) /\
  length (detections (events_since w w')) = length segs.
Proof.
  intros Hun H. apply segment_loop_ok in H as (ds & Htr & Hloop).
  rewrite (events_since_app _ _ _ Htr).
  apply (LoopOk_unlabelled _ _ _ _ _ _ _ Hloop Hun).
  intros j _. unfold rotation_index. simpl. by rewrite !lookup_empty.
Qed.

Lemma unlabelled_segments_first_voice_witness :
  voices_of (events_since empty_world unlabelled_loop.2)
  = map first_voice (genders_logged (events_since empty_world unlabelled_loop.2)) /\
  length (detections (events_since empty_world unlabelled_loop.2))
  = length unlabelled_segments.
Proof.
  apply (unlabelled_segments_first_voice (demo_env None) "/tmp/a.wav" "job" 3
           unlabelled_segments empty_world unlabelled_loop.2 unlabelled_state).
  - repeat constructor; (by left) || (by right).
  - vm_compute. reflexivity.
Defined.

(** ** The concat list *)

Lemma append_nil_r (s : string) : s +:+ "" = s.
Proof. induction s as [|c s IH]; [done|]. by rewrite append_cons, IH. Qed.


Lemma rev_app_rev_app (s a b : string) :
  String.rev_app (String.rev_app s a) b = String.rev_app a (s +:+ b).
Proof.
  revert a b. induction s as [|c s IH]; intros a b; [done|].
  simpl. by rewrite IH.
Qed.


Lemma string_rev_involutive (s : string) : String.rev (String.rev s) = s.
Proof. unfold String.rev. rewrite rev_app_rev_app. simpl. apply append_nil_r. Qed.

Lemma all_chars_cons P c s : all_chars P (String c s) <-> P c /\ all_chars P s.
Proof. unfold all_chars. simpl. apply Forall_cons. Qed.

Lemma all_chars_app P a b : all_chars P (a +:+ b) <-> all_chars P a /\ all_chars P b.
Proof.
  induction a as [|c a IH].
  - unfold all_chars at 2. simpl. rewrite Forall_nil. tauto.
  - rewrite append_cons, !all_chars_cons, IH. tauto.
Qed.

(** Splitting a text without separator, and a text up to its first one. *)
Lemma split_go_plain sep cur x :
  all_chars (fun c => c <> sep) x ->
  Js.split_go sep cur x = [String.rev (String.rev_app x cur)].
Proof.
  revert cur. induction x as [|c x IH]; intros cur Hx; [done|].
  apply all_chars_cons in Hx as [Hc Hx]. simpl.
  rewrite decide_False by done. by rewrite IH.
Qed.

Lemma split_go_first sep cur x r :
  all_chars (fun c => c <> sep) x ->
  Js.split_go sep cur (x +:+ String sep r)
  = String.rev (String.rev_app x cur) :: Js.split_go sep "" r.
Proof.
  revert cur. induction x as [|c x IH]; intros cur Hx.
  - simpl. by rewrite decide_True.
  - apply all_chars_cons in Hx as [Hc Hx]. rewrite append_cons. simpl.
    rewrite decide_False by done. by rewrite IH.
Qed.

Lemma rev_rev_app_nil x : String.rev (String.rev_app x "") = x.
Proof. apply string_rev_involutive. Qed.

(** [split] undoes [join] on a non-empty list of texts without the
    separator. *)
Lemma split_join sep xs :
  xs <> [] ->
  Forall (all_chars (fun c => c <> sep)) xs ->
  Js.split sep (Js.join (String sep "") xs) = xs.
Proof.
  unfold Js.split. induction xs as [|x xs IH]; [done|]. intros _ Hall.
  apply Forall_cons in Hall as [Hx Hall]. destruct xs as [|y xs].
  - simpl. rewrite split_go_plain by done. by rewrite rev_rev_app_nil.
  - change (Js.join (String sep "") (x :: y :: xs))
      with (x +:+ String sep (Js.join (String sep "") (y :: xs))).
    rewrite split_go_first by done. rewrite rev_rev_app_nil. f_equal.
    by apply IH.
Qed.

Lemma concat_line_plain f :
  all_chars (fun c => c <> newline) f ->
  all_chars (fun c => c <> newline) (concat_line f).
Proof.
  intros Hf. unfold concat_line. rewrite !all_chars_app. split; [|split; [done|]].
  - repeat (apply all_chars_cons; split; [discriminate|]). constructor.
  - apply all_chars_cons. split; [discriminate|]. constructor.
Qed.

(** X11.  [concatAudio] writes a list file with one line [file '...'] per
    clip, in the order of the timeline (for clips whose paths hold no line
    break), and runs one concat process on it.  When the process succeeds
    the list file is removed; when it fails the list file is left on disk
    with its content. *)
Theorem concatAudio_list_file (env : Env) (paths : list string) (output : string)
    (w : World) :
  paths <> [] ->
  Forall (all_chars (fun c => c <> newline)) paths ->
  exists list content,
    Js.split newline content = map concat_line paths /\
    take 3 (events_since w (concatAudio env paths output w).2)
    = [TempName list; WriteFile list content;
       ExecFile ["-f"; "concat"; "-safe"; "0"; "-i"; list; "-c"; "copy"; output]] /\
    match (concatAudio env paths output w).1 with
    | Ok _ => files (concatAudio env paths output w).2 !! list = None
    | Throw _ => files (concatAudio env paths output w).2 !! list = Some content
    end.
Proof.
  intros Hne Hplain. unfold concatAudio, mbind, M_bind, tempFile.
  set (list := tmpdir env +:+ "/" +:+ pretty (now env (history w)) +:+ "-"
               +:+ random env (history w) +:+ ".txt").
  assert (list <> "") as Hlist by (subst list; destruct (tmpdir env); discriminate).
  exists list, (Js.join "
" (map concat_line paths)).
  split.
  { apply (split_join newline).
    - by destruct paths.
    - apply Forall_map. eapply Forall_impl; [exact Hplain|]. apply concat_line_plain. }
  unfold writeFileSync, execFileAsync.
  set (content := Js.join _ _).
  destruct (ffmpeg env _ _) as [[stderr data]|]; cbn [fst snd].
  - split.
    + unfold safeUnlink, events_since.
      repeat case_decide; cbn [snd trace log set_files];
        rewrite <- ?app_assoc, drop_app_length; done.
    + unfold safeUnlink. case_decide as Hex; cbn [snd files log set_files].
      * apply lookup_delete_eq.
      * exfalso. apply Hex. split; [done|].
        case_decide; cbn [files log set_files].
        -- rewrite lookup_insert_eq. eauto.
        -- destruct (decide (output = list)) as [->|Hol];
             [rewrite lookup_insert_eq
             |rewrite lookup_insert_ne, lookup_insert_eq by done]; eauto.
  - split.
    + unfold events_since. cbn [snd trace log set_files].
      by rewrite <- ?app_assoc, drop_app_length.
    + cbn [files log set_files]. apply lookup_insert_eq.
Qed.

Lemma concatAudio_list_file_witness :
  exists list content,
    Js.split newline content = map concat_line ["/tmp/a.mp3"; "/tmp/b.wav"] /\
    take 3 (events_since empty_world
              (concatAudio (demo_env None) ["/tmp/a.mp3"; "/tmp/b.wav"] "/tmp/out.wav"
                 empty_world).2)
    = [TempName list; WriteFile list content;
       ExecFile ["-f"; "concat"; "-safe"; "0"; "-i"; list; "-c"; "copy";
                 "/tmp/out.wav"]] /\
    match (concatAudio (demo_env None) ["/tmp/a.mp3"; "/tmp/b.wav"] "/tmp/out.wav"
             empty_world).1 with
    | Ok _ =>
        files (concatAudio (demo_env None) ["/tmp/a.mp3"; "/tmp/b.wav"] "/tmp/out.wav"
                 empty_world).2 !! list = None
    | Throw _ =>
        files (concatAudio (demo_env None) ["/tmp/a.mp3"; "/tmp/b.wav"] "/tmp/out.wav"
                 empty_world).2 !! list = Some content
    end.
Proof.
  apply (concatAudio_list_file (demo_env None) ["/tmp/a.mp3"; "/tmp/b.wav"]
           "/tmp/out.wav" empty_world).
  - discriminate.
  - unfold all_chars. simpl. repeat constructor; discriminate.
Defined.

Example concatAudio_leaks_on_failure :
  map_to_list (files (concatAudio failing_env ["/tmp/a.mp3"; "/tmp/b.wav"]
                        "/tmp/out.wav" empty_world).2)
  = [("/tmp/0-0.5.txt", "file '/tmp/a.mp3'
file '/tmp/b.wav'")].
Proof. vm_compute. reflexivity. Qed.

(** ** Silence for short gaps *)

Lemma floor_zero (x : Qc) : (0 ≤ x)%Qc -> (x < 1)%Qc -> Js.floor x = 0.
Proof.
  unfold Js.floor, Qcle, Qclt. intros H0 H1.
  pose proof (Qfloor_le x) as Hle. pose proof (Qlt_floor x) as Hlt.
  assert (0 <= Qfloor x).
  { change 0 with (Qfloor 0). by apply Qfloor_resp_le. }
  assert (Qfloor x < 1).
  { rewrite Zlt_Qlt. eapply Qle_lt_trans; [exact Hle|exact H1]. }
  lia.
Qed.

Lemma toFixed_below_half_hundredth (s : Qc) :
  (0 < s)%Qc -> (s < ratio 1 200)%Qc -> Js.toFixed 2 s = "0.00".
Proof.
  intros Hpos Hsmall. unfold Js.toFixed.
  rewrite decide_False by (by apply Qcle_not_lt, Qclt_le_weak).
  unfold Js.toFixed_digits. rewrite floor_zero; [done| |].
  - unfold Qcle, Qclt in *. unfold ratio in Hsmall.
    unfold Qcdiv, Qcmult, Qcplus, Qcinv, Qc_of_Z, Q2Qc in *. cbn [this] in *.
    rewrite !Qred_correct in *.
    change (inject_Z (10 ^ Z.of_nat 2)) with (100 # 1)%Q.
    change (inject_Z 1 * / inject_Z 2)%Q with (1 # 2)%Q.
    change (0%Qc : Q) with (0 # 1)%Q in *. lra.
  - unfold Qcle, Qclt in *. unfold ratio in Hsmall.
    unfold Qcdiv, Qcmult, Qcplus, Qcinv, Qc_of_Z, Q2Qc in *. cbn [this] in *.
    rewrite !Qred_correct in *.
    change (inject_Z (10 ^ Z.of_nat 2)) with (100 # 1)%Q.
    change (inject_Z 1 * / inject_Z 2)%Q with (1 # 2)%Q.
    change (inject_Z 1 * / inject_Z 200)%Q with (1 # 200)%Q in Hsmall.
    change (1%Qc : Q) with (1 # 1)%Q. change (0%Qc : Q) with (0 # 1)%Q in *. lra.
Qed.

(** X12.  For a positive duration below 5 ms, [createSilence] still runs
    ffmpeg, once, and asks it for silence of duration [0.00]: the
    duration it passes is rounded to the hundredth of a second. *)
Theorem createSilence_short_gap (env : Env) (seconds : Qc) (output : string)
    (w : World) :
  (0 < seconds)%Qc ->
  (seconds < ratio 1 200)%Qc ->
  events_since w (createSilence env seconds output w).2
  = [ExecFile ["-f"; "lavfi"; "-i"; "anullsrc=r=44100:cl=mono"; "-t"; "0.00"; output]].
Proof.
  intros Hpos Hsmall.
  destruct (createSilence env seconds output w) as [r w'] eqn:H.
  apply createSilence_inv in H; [|done].
  rewrite toFixed_below_half_hundredth in H by done.
  by apply events_since_app.
Qed.

Lemma createSilence_short_gap_witness :
  events_since empty_world
    (createSilence (demo_env None) (ratio 4 1000) "/tmp/s.wav" empty_world).2
  = [ExecFile ["-f"; "lavfi"; "-i"; "anullsrc=r=44100:cl=mono"; "-t"; "0.00";
               "/tmp/s.wav"]].
Proof.
  apply (createSilence_short_gap (demo_env None) (ratio 4 1000) "/tmp/s.wav"
           empty_world); vm_compute; reflexivity.
Defined.

(** ** What gender detection parses *)


























Example gender_of_values_demo :
  gender_of_values [ratio (-205) 10] = female /\
  gender_of_values [ratio (-20) 1; ratio (-5) 1] = male /\
  gender_of_values [ratio (-125) 10] = male.
Proof. vm_compute. done. Qed.

(** ** The calls to the outside, counted *)




Section Calls.
Context (env : Env).




End Calls.


